(** * noted: the static-site build script [build.ts]

    A shallow embedding of the build script of the notes repository and
    the properties of its table of contents, page conversion and file
    discovery.

    Conventions of the embedding.
    - A JavaScript string is a sequence of UTF-16 code units.  The
      development works with the strings whose code units are below 256
      and represents them as [string], one [ascii] per code unit.  Every
      operation of the script on strings ([split], [===], [startsWith],
      [endsWith], the two regular expressions) works code unit by code
      unit, so on these strings the definitions below are the
      operations of the script.
    - [localeCompare] belongs to the runtime (its result depends on the
      collation data of the host).  It is a parameter [cmp] of everything
      that sorts; what is assumed of it is stated by [Consistent].
    - [marked.parse] is a parameter [marked] of the page converter.
    - [Array.prototype.sort] is stable (ECMAScript 2019).  For a
      consistent comparator its result is the unique stable sorted
      permutation of its input, which is what [Array.sort] computes.
    - Console output is not part of the embedding. *)

From stdpp Require Import gmap strings list pretty.
From Stdlib Require Import ZArith Sorting.Sorted Permutation Ascii String Lia.
From Stdlib Require OrderedTypeEx.

Set Warnings "-register-all".

Open Scope string_scope.
Open Scope Z_scope.

(** ** JavaScript strings *)

Module Str.

(** The double quote, which the page templates contain. *)
Definition dq : string := String (ascii_of_nat 34) "".

(** [s.split(sep)] for a separator of one code unit: the pieces between
    the separators, empty pieces included; the split of the empty string
    is the one-element array holding the empty string. *)
Fixpoint split (sep : ascii) (s : string) : list string :=
  match s with
  | EmptyString => [EmptyString]
  | String c s' =>
      if Ascii.eqb c sep then EmptyString :: split sep s'
      else match split sep s' with
           | h :: t => String c h :: t
           | [] => [String c EmptyString]
           end
  end.

(** [parts.join(sep)]. *)
Definition join (sep : string) (parts : list string) : string :=
  String.concat sep parts.

(** [Boolean(s)] for a string: the empty string is the only falsy one. *)
Definition Boolean (s : string) : bool := negb (String.eqb s EmptyString).

(** [s.startsWith(p)]. *)
Definition startsWith (p s : string) : bool := String.prefix p s.

(** [s.endsWith(p)]. *)
Definition endsWith (p s : string) : bool :=
  (String.length p <=? String.length s)%nat &&
  String.eqb (substring (String.length s - String.length p) (String.length p) s) p.

(** [s.slice(0, s.length - n)]. *)
Definition dropEnd (n : nat) (s : string) : string :=
  substring 0 (String.length s - n) s.

(** Comparison by code units, a total order on strings.  It is the
    instance of the comparator at which the general statements are
    evaluated. *)
Definition codeUnitCompare (a b : string) : Z :=
  match String.compare a b with
  | Lt => -1
  | Eq => 0
  | Gt => 1
  end.

End Str.

(** ** JavaScript arrays: [sort] with a comparator *)

Module Array.

Section Sort.
Context {A : Type}.
Variable cmp : A -> A -> Z.

(** [place x l] puts [x] in front of the first element that does not
    sort strictly before it. *)
Fixpoint place (x : A) (l : list A) : list A :=
  match l with
  | [] => [x]
  | y :: l' => if cmp x y <=? 0 then x :: l else y :: place x l'
  end.

(** [l.sort(cmp)]: each element is placed into the sorted rest; an
    element stays in front of the later elements it ties with. *)
Fixpoint sort (l : list A) : list A :=
  match l with
  | [] => []
  | x :: l' => place x (sort l')
  end.

(** What ECMAScript calls a consistent comparator: the sign of [cmp]
    is antisymmetric and "not after" is transitive. *)
Record Consistent : Prop := {
  cmp_flip : forall a b, cmp a b < 0 <-> 0 < cmp b a;
  cmp_trans : forall a b c, cmp a b <= 0 -> cmp b c <= 0 -> cmp a c <= 0
}.

Definition notAfter (a b : A) : Prop := cmp a b <= 0.
Definition before (a b : A) : Prop := cmp a b < 0.

(** No two elements of the list tie. *)
Definition TieFree (l : list A) : Prop :=
  ForallOrdPairs (fun a b => cmp a b <> 0) l.

End Sort.

End Array.

(** ** Node's [path] module (posix)

    The script joins a normalized absolute directory with names of
    directory entries and takes paths relative to a directory they lie
    below.  On such operands the functions of the module are these. *)

Module Path.

(** [join(dir, rest)]: [rest] holds no ["."] or [".."] segment, so
    normalization changes nothing. *)
Definition join (dir rest : string) : string := dir ++ "/" ++ rest.

(** [relative(from, to)] for a path [to] below [from]: what follows
    [from] and the separator.  (The script calls it on nothing else;
    a path that is not below [from] is returned as it is.) *)
Definition relative (from to : string) : string :=
  let pre := from ++ "/" in
  if Str.startsWith pre to
  then substring (String.length pre) (String.length to - String.length pre) to
  else to.

(** [dirname(p)]: the path without its last segment. *)
Definition dirname (p : string) : string :=
  let d := Str.join "/" (removelast (Str.split "/"%char p)) in
  if String.eqb d "" then (if Str.startsWith "/" p then "/" else ".") else d.

(** [basename(p, ext)] for an absolute path: the last non-empty segment,
    without [ext] when the segment ends with [ext] and is longer. *)
Definition basename (p ext : string) : string :=
  let name := List.last (List.filter Str.Boolean (Str.split "/"%char p)) "" in
  if Str.endsWith ext name && negb (String.eqb name ext)
  then Str.dropEnd (String.length ext) name
  else name.

(** The directories [mkdir(p, { recursive: true })] makes sure exist:
    [p] and the directories above it (the root apart). *)
Definition ancestors (p : string) : list string :=
  List.filter Str.Boolean
    (map (fun n => Str.join "/" (take n (Str.split "/"%char p)))
         (seq 1 (List.length (Str.split "/"%char p)))).

End Path.

(** ** The regular expressions of the script *)

Module Regex.

(** Line terminators of ECMAScript regular expressions (LF and CR; the
    two others, U+2028 and U+2029, are not below 256). *)
Definition isLineTerminator (c : ascii) : bool :=
  Ascii.eqb c "010" || Ascii.eqb c "013".

(** [\s]: TAB, LF, VT, FF, CR, SPACE and NBSP (the white space below
    256); it includes the line terminators. *)
Definition isWhiteSpace (c : ascii) : bool :=
  existsb (Ascii.eqb c) ["009"; "010"; "011"; "012"; "013"; "032"; "160"]%char.

(** [.]: any code unit that is not a line terminator. *)
Definition isDot (c : ascii) : bool := negb (isLineTerminator c).

(** [$] under the [m] flag: at the end of the input or in front of a
    line terminator. *)
Definition atEol (rest : string) : bool :=
  match rest with
  | EmptyString => true
  | String c _ => isLineTerminator c
  end.

(** A greedy [cls+] followed by the continuation [k]: the longest run
    is tried first and shortened one code unit at a time while [k]
    fails.  [k] receives the text taken and the rest of the input. *)
Fixpoint many1 {R : Type} (cls : ascii -> bool) (s : string)
    (k : string -> string -> option R) : option R :=
  match s with
  | EmptyString => None
  | String c s' =>
      if cls c then
        match many1 cls s' (fun m rest => k (String c m) rest) with
        | Some r => Some r
        | None => k (String c EmptyString) s'
        end
      else None
  end.

(** [#\s+(.+)$] matched at the front of [s]; the result is group 1. *)
Definition matchHeading (s : string) : option string :=
  match s with
  | String c s1 =>
      if Ascii.eqb c "#" then
        many1 isWhiteSpace s1 (fun _ s2 =>
          many1 isDot s2 (fun cap s3 =>
            if atEol s3 then Some cap else None))
      else None
  | EmptyString => None
  end.

(** The leftmost match of [/^#\s+(.+)$/m]: the start positions are
    tried from left to right; [bol] tells whether [^] holds at the
    current one (the start of the input or behind a line terminator). *)
Fixpoint search (bol : bool) (s : string) : option string :=
  match (if bol then matchHeading s else None) with
  | Some cap => Some cap
  | None =>
      match s with
      | EmptyString => None
      | String c s' => search (isLineTerminator c) s'
      end
  end.

(** [mdContent.match(/^#\s+(.+)$/m)], reduced to its group 1. *)
Definition h1Match (mdContent : string) : option string := search true mdContent.

(** [s.replace(/\.md$/, ".html")]: without the [m] flag [$] is the end
    of the input. *)
Definition replaceMdExt (s : string) : string :=
  if Str.endsWith ".md" s then Str.dropEnd 3 s ++ ".html" else s.

End Regex.

(** ** Data model *)

(** [interface PageInfo]. *)
Record PageInfo := mkPageInfo {
  path : string;
  relativePath : string;
  title : string;
  depth : Z
}.

(** [TreeNode]: the script uses the type without declaring it in
    [build.ts]; its fields are those of the object literals at lines
    121-126 and 140-145.  ([npath] is the field [path].) *)
Inductive TreeNode := mkNode {
  name : string;
  npath : string;
  children : list TreeNode;
  page : option PageInfo
}.

(** What [readdir(dir, { withFileTypes: true })] shows: a tree of
    directory entries.  [Dir n readable es] is a directory; [readdir]
    rejects on it when [readable] is false.  [Other] is an entry that
    is neither a file nor a directory (a symbolic link, a socket). *)
Inductive Entry :=
| File (n : string)
| Dir (n : string) (readable : bool) (es : list Entry)
| Other (n : string).

Definition entryName (e : Entry) : string :=
  match e with
  | File n => n
  | Dir n _ _ => n
  | Other n => n
  end.

(** The files and directories the script reads and writes, by absolute
    path.  [readFile] rejects on a path that holds no file; [mkdir] and
    [writeFile] are taken to succeed (a full or read-only disk is not
    part of the embedding). *)
Record Disk := mkDisk {
  files : gmap string string;
  dirs : gset string
}.

(** An asynchronous function of the script: it changes the disk and
    resolves with a value ([Some]) or rejects ([None]); what was written
    before a rejection stays written. *)
Definition Async (A : Type) : Type := Disk -> option A * Disk.

Definition resolve {A : Type} (a : A) : Async A := fun d => (Some a, d).
Definition reject {A : Type} : Async A := fun d => (None, d).
Definition await {A B : Type} (m : Async A) (k : A -> Async B) : Async B :=
  fun d => match m d with
           | (Some a, d') => k a d'
           | (None, d') => (None, d')
           end.

Notation "'await!' x ':=' m 'in' k" := (await m (fun x => k))
  (at level 10, x name, m at level 100, k at level 200).

Definition readFile (p : string) : Async string :=
  fun d => (files d !! p, d).

Definition writeFile (p content : string) : Async unit :=
  fun d => (Some tt, mkDisk (<[p := content]> (files d)) (dirs d)).

Definition mkdir (p : string) : Async unit :=
  fun d => (Some tt, mkDisk (files d) (list_to_set (Path.ancestors p) ∪ dirs d)).

(** ** The page templates

    The template literals of the script, with the double quotes written
    as [Str.dq].  The three pictographs of the style sheet of the table
    of contents stand as their UTF-8 bytes, as in the file on disk. *)

Module Template.

(** [htmlTemplate], lines 9-44. *)
Definition htmlTemplate (title content : string) : string :=
  "<!DOCTYPE html>
<html lang=" ++ Str.dq ++ "en" ++ Str.dq ++ ">
<head>
    <meta charset=" ++ Str.dq ++ "UTF-8" ++ Str.dq ++ ">
    <meta name=" ++ Str.dq ++ "viewport" ++ Str.dq ++ " content=" ++ Str.dq ++ "width=device-width, initial-scale=1.0" ++ Str.dq ++ ">
    <title>" ++ title ++ "</title>
    <style>
        body {
            max-width: 800px;
            margin: 0 auto;
            padding: 2rem;
            font-family: system-ui, -apple-system, sans-serif;
            line-height: 1.6;
            color: #333;
        }
        pre {
            background: #f4f4f4;
            padding: 1rem;
            border-radius: 4px;
            overflow-x: auto;
        }
        code {
            background: #f4f4f4;
            padding: 0.2rem 0.4rem;
            border-radius: 3px;
        }
        pre code {
            background: none;
            padding: 0;
        }
    </style>
</head>
<body>
    " ++ content ++ "
</body>
</html>".

(** The item of a file node, lines 159-165; [href] is [node.page.path]
    and [title] is [node.page.title]. *)
Definition fileItem (href title : string) : string :=
  "
        <li>
          <a href=" ++ Str.dq ++ href ++ Str.dq ++ " class=" ++ Str.dq ++ "file-link" ++ Str.dq ++ ">
            <span class=" ++ Str.dq ++ "file-icon" ++ Str.dq ++ "></span>
            <span>" ++ title ++ "</span>
          </a>
        </li>".

(** The item of a folder node, lines 180-189. *)
Definition folderItem (name childHtml : string) : string :=
  "
        <li>
          <div class=" ++ Str.dq ++ "folder" ++ Str.dq ++ " data-folder>
            <span class=" ++ Str.dq ++ "folder-icon" ++ Str.dq ++ "></span>
            <span class=" ++ Str.dq ++ "folder-name" ++ Str.dq ++ ">" ++ name ++ "</span>
          </div>
          <ul class=" ++ Str.dq ++ "folder-content" ++ Str.dq ++ ">
            " ++ childHtml ++ "
          </ul>
        </li>".

(** The page of the table of contents, lines 196-302; [total] is
    [pages.length] as the template literal prints it. *)
Definition tocPage (innerTree total : string) : string :=
  "
<!doctype html>
<html lang=" ++ Str.dq ++ "en" ++ Str.dq ++ ">
<head>
  <meta charset=" ++ Str.dq ++ "UTF-8" ++ Str.dq ++ " />
  <meta name=" ++ Str.dq ++ "viewport" ++ Str.dq ++ " content=" ++ Str.dq ++ "width=device-width, initial-scale=1.0" ++ Str.dq ++ " />
  <title>toc</title>
  <style>
    * { margin: 0; padding: 0; box-sizing: border-box; }
    body {
      font-family: -apple-system, BlinkMacSystemFont, " ++ Str.dq ++ "Segoe UI" ++ Str.dq ++ ", Roboto, Oxygen, Ubuntu, Cantarell, sans-serif;
      background-color: #f3f4f6;
      padding: 2rem;
    }
    .container {
      max-width: 800px;
      margin: 0 auto;
      background-color: white;
      border-radius: 0.5rem;
      box-shadow: 0 4px 6px rgba(0, 0, 0, 0.1);
      padding: 1.5rem;
    }
    h1 {
      font-size: 1.5rem;
      font-weight: bold;
      margin-bottom: 1.5rem;
      color: #1f2937;
    }
    ul { list-style: none; }
    ul ul { margin-left: 1.5rem; margin-top: 0.25rem; }
    .folder {
      display: flex;
      align-items: center;
      padding: 0.5rem;
      cursor: pointer;
      border-radius: 0.25rem;
      user-select: none;
    }
    .folder:hover { background-color: #f3f4f6; }
    .folder-icon { margin-right: 0.5rem; font-size: 1rem; }
    .folder-icon::before { content: " ++ Str.dq ++ "📁" ++ Str.dq ++ "; }
    .folder.open .folder-icon::before { content: " ++ Str.dq ++ "📂" ++ Str.dq ++ "; }
    .folder-name { font-weight: 500; color: #374151; }
    .folder-content {
      max-height: 0;
      overflow: hidden;
      transition: max-height 0.3s ease-out;
    }
    .folder-content.open {
      max-height: 2000px;
      transition: max-height 0.5s ease-in;
    }
    .file-link {
      display: flex;
      align-items: center;
      padding: 0.5rem;
      text-decoration: none;
      color: #2563eb;
      border-radius: 0.25rem;
    }
    .file-link:hover {
      background-color: #eff6ff;
      color: #1d4ed8;
    }
    .file-icon { margin-right: 0.5rem; }
    .file-icon::before { content: " ++ Str.dq ++ "📄" ++ Str.dq ++ "; }
    .total-pages {
      margin-top: 1rem;
      color: #6b7280;
      font-size: 0.875rem;
    }
  </style>
</head>
<body>
  <div class=" ++ Str.dq ++ "container" ++ Str.dq ++ ">
    <h1>Directory Tree</h1>
    <ul id=" ++ Str.dq ++ "root" ++ Str.dq ++ ">
      " ++ innerTree ++ "
    </ul>
    <p class=" ++ Str.dq ++ "total-pages" ++ Str.dq ++ ">Total pages: <span id=" ++ Str.dq ++ "total-pages" ++ Str.dq ++ ">" ++ total ++ "</span></p>
  </div>

  <script>
    const folders = document.querySelectorAll(" ++ Str.dq ++ "[data-folder]" ++ Str.dq ++ ");
    folders.forEach((folder) => {
      folder.addEventListener(" ++ Str.dq ++ "click" ++ Str.dq ++ ", function (e) {
        e.stopPropagation();
        const content = this.nextElementSibling;
        if (content && content.classList.contains(" ++ Str.dq ++ "folder-content" ++ Str.dq ++ ")) {
          this.classList.toggle(" ++ Str.dq ++ "open" ++ Str.dq ++ ");
          content.classList.toggle(" ++ Str.dq ++ "open" ++ Str.dq ++ ");
        }
      });
    });

    const fileLinks = document.querySelectorAll(" ++ Str.dq ++ ".file-link" ++ Str.dq ++ ");
    fileLinks.forEach((link) => {
      link.addEventListener(" ++ Str.dq ++ "click" ++ Str.dq ++ ", function (e) {
        // Let the browser handle navigation (since href is real)
        // But you can still log if you want
        const fileName = this.querySelector(" ++ Str.dq ++ "span:last-child" ++ Str.dq ++ ").textContent;
        console.log(" ++ Str.dq ++ "Navigating to:" ++ Str.dq ++ ", fileName);
      });
    });
  </script>
</body>
</html>".

End Template.

(** ** The table of contents: [generateTocHtml] *)

Section Toc.
Variable localeCompare : string -> string -> Z.

(** The comparator of [pages.sort], line 118. *)
Definition comparePages (a b : PageInfo) : Z :=
  localeCompare (path a) (path b).

(** The root of the tree, lines 121-126. *)
Definition root : TreeNode := mkNode "Project" "" [] None.

(** [page.path.split("/").filter(Boolean)], line 129. *)
Definition pathParts (p : string) : list string :=
  List.filter Str.Boolean (Str.split "/"%char p).

(** The first element of [l] that satisfies [found] replaced by its
    image under [f]; [None] when there is none.  It stands for
    [children.find(...)] followed by a change of the child found. *)
Fixpoint updateFirst (found : TreeNode -> bool) (f : TreeNode -> TreeNode)
    (l : list TreeNode) : option (list TreeNode) :=
  match l with
  | [] => None
  | c :: l' =>
      if found c then Some (f c :: l')
      else option_map (cons c) (updateFirst found f l')
  end.

(** The inner [parts.forEach], lines 132-152, from the part at index
    [length sofar] on: [sofar] holds the parts already walked,
    [current] is the node reached.  The result is [current] after the
    loop.  A child of the same name is reused; the walk goes down into
    it unless the part is the last one. *)
Fixpoint insertParts (pg : PageInfo) (sofar parts : list string)
    (current : TreeNode) {struct parts} : TreeNode :=
  match parts with
  | [] => current
  | part :: rest =>
      let isFile := match rest with [] => true | _ => false end in
      let fullPathSoFar := Str.join "/" (sofar ++ [part]) in
      let descend (child : TreeNode) : TreeNode :=
        if isFile then child
        else insertParts pg (sofar ++ [part]) rest child in
      match updateFirst (fun c => String.eqb (name c) part) descend
              (children current) with
      | Some cs => mkNode (name current) (npath current) cs (page current)
      | None =>
          let child :=
            mkNode part fullPathSoFar [] (if isFile then Some pg else None) in
          mkNode (name current) (npath current)
                 (children current ++ [descend child]) (page current)
      end
  end.

(** One round of [pages.forEach], lines 128-153. *)
Definition insertPage (tree : TreeNode) (pg : PageInfo) : TreeNode :=
  insertParts pg [] (pathParts (path pg)) tree.

(** The Tree Builder: the tree after [pages.forEach]. *)
Definition buildTree (pages : list PageInfo) : TreeNode :=
  fold_left insertPage pages root.

(** [!node.page]. *)
Definition isDir (node : TreeNode) : bool :=
  match page node with
  | None => true
  | Some _ => false
  end.

(** The comparator of the children, lines 169-176. *)
Definition compareNodes (a b : TreeNode) : Z :=
  let aIsDir := isDir a in
  let bIsDir := isDir b in
  if aIsDir && negb bIsDir then -1
  else if negb aIsDir && bIsDir then 1
  else localeCompare (name a) (name b).

(** [renderNode], lines 156-191.  Each child is paired with its own
    rendering before the sort, which makes the recursion structural;
    the comparator looks at the child only, so this is the sort of
    the children followed by the map ([renderNode_folder] below).
    The argument [depth] of the script never reaches the output and
    is left out. *)
Fixpoint renderNode (node : TreeNode) : string :=
  match node with
  | mkNode _ _ _ (Some pg) => Template.fileItem (path pg) (title pg)
  | mkNode nm _ cs None =>
      let rendered := map (fun child => (child, renderNode child)) cs in
      let childHtml :=
        Str.join ""
          (map snd (Array.sort (fun a b => compareNodes (fst a) (fst b)) rendered)) in
      Template.folderItem nm childHtml
  end.

(** The children of a folder in the order [renderNode] renders them. *)
Definition renderedChildren (node : TreeNode) : list TreeNode :=
  Array.sort compareNodes (children node).

(** The children of the root in the order line 193 renders them. *)
Definition renderedRootChildren (tree : TreeNode) : list TreeNode :=
  children tree.

(** [innerTree], line 193. *)
Definition innerTree (tree : TreeNode) : string :=
  Str.join "" (map renderNode (renderedRootChildren tree)).

(** [pages] after line 118. *)
Definition sortedPages (pages : list PageInfo) : list PageInfo :=
  Array.sort comparePages pages.

(** [generateTocHtml]. *)
Definition generateTocHtml (pages : list PageInfo) : string :=
  let pages := sortedPages pages in
  let tree := buildTree pages in
  Template.tocPage (innerTree tree) (pretty (List.length pages)).

End Toc.

(** ** Discovery, conversion and the build *)

(** The entries the walk passes over, lines 63-67. *)
Definition skipped (n : string) : bool :=
  String.eqb n "dist" || String.eqb n "node_modules" || Str.startsWith "." n.

(** The loop over the entries of [dir], lines 59-76; [visit] is the
    recursive call of line 72.  [None] is a rejection.  [files.push]
    appends. *)
Definition forEntries
    (visit : string -> Entry -> list string -> option (list string))
    (dir : string) : list Entry -> list string -> option (list string) :=
  fix loop (entries : list Entry) (files : list string) {struct entries} :=
    match entries with
    | [] => Some files
    | entry :: entries' =>
        let fullPath := Path.join dir (entryName entry) in
        if skipped (entryName entry) then loop entries' files
        else
          match entry with
          | Dir _ _ _ =>
              match visit fullPath entry files with
              | Some files' => loop entries' files'
              | None => None
              end
          | File n =>
              if Str.endsWith ".md" n
              then loop entries' (files ++ [fullPath])%list
              else loop entries' files
          | Other _ => loop entries' files
          end
    end.

(** [getAllMarkdownFiles(dir, files)], lines 53-79; [d] is the entry of
    the directory [dir] on disk (its own name plays no part).  [readdir]
    rejects on a directory that cannot be read and on what is not a
    directory. *)
Fixpoint getAllMarkdownFiles (dir : string) (d : Entry) (files : list string)
    {struct d} : option (list string) :=
  match d with
  | Dir _ true entries => forEntries getAllMarkdownFiles dir entries files
  | _ => None
  end.

(** [Promise.all]: every promise runs, also behind one that rejects;
    the result is the array of the values when none has rejected. *)
Fixpoint all {A : Type} (ms : list (Async A)) : Async (list A) :=
  fun d =>
    match ms with
    | [] => (Some [], d)
    | m :: ms' =>
        let '(r, d1) := m d in
        let '(rs, d2) := all ms' d1 in
        (match r, rs with
         | Some a, Some l => Some (a :: l)
         | _, _ => None
         end, d2)
    end.

Section Build.
Variable localeCompare : string -> string -> Z.
Variable marked : string -> string.
(** [process.cwd()]. *)
Variable cwd : string.

Definition SRC_DIR : string := cwd.
Definition DIST_DIR : string := Path.join cwd "dist".

(** The title of a page, lines 96-97. *)
Definition pageTitle (mdPath mdContent : string) : string :=
  match Regex.h1Match mdContent with
  | Some h1 => h1
  | None => Path.basename mdPath ".md"
  end.

(** The depth of a page, line 100. *)
Definition pageDepth (relativePath : string) : Z :=
  Z.of_nat (List.length (Str.split "/"%char relativePath)) - 1.

(** [convertMarkdownToHtml], lines 81-114. *)
Definition convertMarkdownToHtml (mdPath : string) : Async PageInfo :=
  await! mdContent := readFile mdPath in
  let htmlContent := marked mdContent in
  let relativePath := Path.relative SRC_DIR mdPath in
  let htmlPath := Path.join DIST_DIR (Regex.replaceMdExt relativePath) in
  let outputDir := Path.dirname htmlPath in
  await! _ := mkdir outputDir in
  let title := pageTitle mdPath mdContent in
  let depth := pageDepth relativePath in
  let html := Template.htmlTemplate title htmlContent in
  await! _ := writeFile htmlPath html in
  resolve (mkPageInfo (Path.relative DIST_DIR htmlPath) relativePath title depth).

(** [build], lines 307-332; [tree] is what the directory [cwd] holds. *)
Definition build (tree : Entry) : Async unit :=
  await! _ := mkdir DIST_DIR in
  await! mdFiles := (fun d => (getAllMarkdownFiles SRC_DIR tree [], d)) in
  if (List.length mdFiles =? 0)%nat then resolve tt
  else
    await! pages := all (map convertMarkdownToHtml mdFiles) in
    let tocHtml := generateTocHtml localeCompare pages in
    await! _ := writeFile (Path.join DIST_DIR "toc.html") tocHtml in
    resolve tt.

End Build.

(** ** Notions the properties are stated with *)

Module Str_spec.

(** Every code unit of [s] belongs to the class [cls]. *)
Fixpoint every (cls : ascii -> bool) (s : string) : bool :=
  match s with
  | EmptyString => true
  | String c s' => cls c && every cls s'
  end.

(** The code unit [c] occurs in [s]. *)
Fixpoint occurs (c : ascii) (s : string) : bool :=
  match s with
  | EmptyString => false
  | String c' s' => Ascii.eqb c' c || occurs c s'
  end.

(** [s] without the soft hyphen (U+00AD), a code unit that the
    collation of the runtime ignores. *)
Fixpoint collationKey (s : string) : string :=
  match s with
  | EmptyString => EmptyString
  | String c s' =>
      if Ascii.eqb c "173" then collationKey s' else String c (collationKey s')
  end.

(** A comparator with ties between different strings, as
    [localeCompare] has them: the order of the code units of the
    collation keys. *)
Definition compareKeys (a b : string) : Z :=
  Str.codeUnitCompare (collationKey a) (collationKey b).

End Str_spec.

Module Title_spec.

(** [^] under the [m] flag holds behind [pre]: [pre] is empty or ends
    with a line terminator. *)
Definition atBol (pre : string) : Prop :=
  pre = "" \/ exists pre' c, pre = pre' ++ String c "" /\ Regex.isLineTerminator c = true.

(** A match of [#\s+(.+)$] at the front of [s]: [ws] is the text of
    [\s+], [cap] the text of the group, [post] what follows. *)
Record HeadingHere (s ws cap post : string) : Prop := {
  hh_text : s = "#" ++ ws ++ cap ++ post;
  hh_ws_some : ws <> "";
  hh_ws : Str_spec.every Regex.isWhiteSpace ws = true;
  hh_cap_some : cap <> "";
  hh_cap : Str_spec.every Regex.isDot cap = true;
  hh_eol : Regex.atEol post = true
}.

(** A match of [^#\s+(.+)$] in [text]: [pre] is what precedes it, [ws]
    the text of [\s+], [cap] the text of the group and [post] what
    follows. *)
Record HeadingMatch (text pre ws cap post : string) : Prop := {
  hm_text : text = pre ++ "#" ++ ws ++ cap ++ post;
  hm_bol : atBol pre;
  hm_ws_some : ws <> "";
  hm_ws : Str_spec.every Regex.isWhiteSpace ws = true;
  hm_cap_some : cap <> "";
  hm_cap : Str_spec.every Regex.isDot cap = true;
  hm_eol : Regex.atEol post = true
}.

(** The match the regular expression reports is the first one: the
    leftmost, and at its position the one the greedy quantifiers
    prefer (the longest [\s+], then the longest group). *)
Definition precedes (pre ws cap pre' ws' cap' : string) : Prop :=
  (String.length pre < String.length pre')%nat \/
  (String.length pre = String.length pre' /\
   ((String.length ws' < String.length ws)%nat \/
    (String.length ws' = String.length ws /\
     (String.length cap' <= String.length cap)%nat))).

Definition FirstMatch (text cap : string) : Prop :=
  exists pre ws post,
    HeadingMatch text pre ws cap post /\
    forall pre' ws' cap' post',
      HeadingMatch text pre' ws' cap' post' -> precedes pre ws cap pre' ws' cap'.

Definition NoMatch (text : string) : Prop :=
  forall pre ws cap post, ~ HeadingMatch text pre ws cap post.

End Title_spec.

Module Tree_spec.

(** A directory has no page attached; a file has a page and no
    children. *)
Definition isDirectoryNode (node : TreeNode) : Prop := page node = None.
Definition isFileNode (node : TreeNode) : Prop :=
  page node <> None /\ children node = [].

Definition exactlyOneKind (node : TreeNode) : Prop :=
  (isDirectoryNode node /\ ~ isFileNode node) \/
  (isFileNode node /\ ~ isDirectoryNode node).

Definition namesDistinct (node : TreeNode) : Prop :=
  NoDup (map name (children node)).

(** [P] holds of the node and of every node below it. *)
Inductive EveryNode (P : TreeNode -> Prop) : TreeNode -> Prop :=
| EveryNode_intro node :
    P node -> Forall (EveryNode P) (children node) -> EveryNode P node.

(** The page has at least one segment. *)
Definition hasParts (pg : PageInfo) : bool :=
  match pathParts (path pg) with
  | [] => false
  | _ :: _ => true
  end.

(** [a] is a proper prefix of [b]. *)
Definition properPrefix (a b : list string) : Prop :=
  exists c, c <> [] /\ b = (a ++ c)%list.

(** No page has segments, and at least one, that are a proper prefix of
    the segments of another page: no name is both a page and a folder
    that holds pages. *)
Definition PrefixFree (pages : list PageInfo) : Prop :=
  forall p q, In p pages -> In q pages ->
    pathParts (path p) <> [] ->
    ~ properPrefix (pathParts (path p)) (pathParts (path q)).

(** The invariant of the builder: [F] holds of the segments of the
    pages inserted so far; a node with a page has no children and lies
    at such segments, a node without one has children of distinct
    names that satisfy the invariant in turn.  [sofar] is the place of
    the node. *)
Inductive Built (F : list string -> Prop) : list string -> TreeNode -> Prop :=
| Built_file sofar n p pg :
    F sofar -> Built F sofar (mkNode n p [] (Some pg))
| Built_dir sofar n p cs :
    NoDup (map name cs) ->
    Forall (fun c => Built F (sofar ++ [name c])%list c) cs ->
    Built F sofar (mkNode n p cs None).

End Tree_spec.

Module Walk_spec.

(** [dir] followed by the components [cs], joined as the walk joins
    them. *)
Definition below (dir : string) (cs : list string) : string :=
  fold_left Path.join cs dir.

(** The separators and the components that [below] puts behind [dir]. *)
Fixpoint tailOf (cs : list string) : string :=
  match cs with
  | [] => ""
  | c :: cs' => "/" ++ c ++ tailOf cs'
  end.

(** A name a directory entry can have: not empty, without separator. *)
Definition entryNameOk (n : string) : Prop :=
  n <> "" /\ Str_spec.occurs "/" n = false.

(** Every entry of the tree has a name a directory entry can have. *)
Inductive NamesOk : Entry -> Prop :=
| NamesOk_file n : entryNameOk n -> NamesOk (File n)
| NamesOk_other n : entryNameOk n -> NamesOk (Other n)
| NamesOk_dir n r es :
    entryNameOk n -> Forall NamesOk es -> NamesOk (Dir n r es).

(** The components [cs] lead from the directory [d] to a file: all but
    the last name directories, the last names a file. *)
Inductive FileAt : Entry -> list string -> Prop :=
| FileAt_here n r es f :
    In (File f) es -> FileAt (Dir n r es) [f]
| FileAt_down n r es sub c cs :
    In sub es -> entryName sub = c -> FileAt sub cs ->
    FileAt (Dir n r es) (c :: cs).

(** Every directory of the tree can be read. *)
Inductive Readable : Entry -> Prop :=
| Readable_file n : Readable (File n)
| Readable_other n : Readable (Other n)
| Readable_dir n es : Forall Readable es -> Readable (Dir n true es).

(** The names the walk excludes. *)
Definition excluded (n : string) : Prop :=
  n = "dist" \/ n = "node_modules" \/ Str.startsWith "." n = true.

(** [p] is the path of a markdown file of the tree [d] below [dir],
    reached through names that are not excluded. *)
Definition Discovered (dir : string) (d : Entry) (p : string) : Prop :=
  exists cs f,
    p = below dir cs /\ FileAt d cs /\
    last cs = Some f /\ Str.endsWith ".md" f = true /\
    Forall (fun c => ~ excluded c) cs.

End Walk_spec.

(** ** Notions of the further properties *)

Module Walk_order.

(** The markdown files below the directory [d], as lists of components,
    in the order of the walk: the entries of a directory in the order
    [readdir] gives them, a directory in place of its files. *)
Fixpoint listing (d : Entry) : list (list string) :=
  match d with
  | Dir _ _ es =>
      flat_map
        (fun e =>
           if skipped (entryName e) then []
           else
             match e with
             | File n => if Str.endsWith ".md" n then [[n]] else []
             | Dir n _ _ => map (cons n) (listing e)
             | Other _ => []
             end) es
  | _ => []
  end.

(** The walk can read every directory it enters: the root and, in turn,
    every directory whose name is not one it passes over. *)
Fixpoint walkable (d : Entry) : bool :=
  match d with
  | Dir _ true es =>
      forallb
        (fun e =>
           skipped (entryName e) ||
           match e with
           | Dir _ _ _ => walkable e
           | _ => true
           end) es
  | _ => false
  end.

(** The entries of every directory have different names. *)
Inductive UniqueNames : Entry -> Prop :=
| UniqueNames_file n : UniqueNames (File n)
| UniqueNames_other n : UniqueNames (Other n)
| UniqueNames_dir n r es :
    NoDup (map entryName es) -> Forall UniqueNames es ->
    UniqueNames (Dir n r es).

End Walk_order.

Module Tree_path.

(** The node reached from [node] by the names [parts], each looked up as
    the script looks a child up: the first child of the name. *)
Fixpoint nodeAt (node : TreeNode) (parts : list string) : option TreeNode :=
  match parts with
  | [] => Some node
  | part :: rest =>
      match List.find (fun c => String.eqb (name c) part) (children node) with
      | Some c => nodeAt c rest
      | None => None
      end
  end.

(** One step of [insertParts] at [current], with the way down [f] and
    the child [fresh] that is added when there is none of the name. *)
Definition stepWith (f : TreeNode -> TreeNode) (part : string)
    (fresh current : TreeNode) : TreeNode :=
  match updateFirst (fun c => String.eqb (name c) part) f (children current) with
  | Some cs => mkNode (name current) (npath current) cs (page current)
  | None =>
      mkNode (name current) (npath current) (children current ++ [f fresh])
             (page current)
  end.

(** What accounts for the node [n] at the place [ps] of the tree of
    [pages]: a page attached to it is one of the pages and has the
    segments [ps]; a node without a page lies on the way to a page. *)
Definition accounted (pages : list PageInfo) (ps : list string) (n : TreeNode) : Prop :=
  match page n with
  | Some q => In q pages /\ pathParts (path q) = ps
  | None => exists q, In q pages /\ Tree_spec.properPrefix ps (pathParts (path q))
  end.

(** The segments of the page are those of one of the pages. *)
Definition segmentsAmong (pages : list PageInfo) (parts : list string) : Prop :=
  exists q, In q pages /\ pathParts (path q) = parts.

End Tree_path.

Module Build_spec.

(** The path [convertMarkdownToHtml] writes the page of [mdPath] to
    ([htmlPath], line 89). *)
Definition outPath (cwd mdPath : string) : string :=
  Path.join (DIST_DIR cwd) (Regex.replaceMdExt (Path.relative (SRC_DIR cwd) mdPath)).

(** The page it writes ([html], line 103). *)
Definition htmlOf (marked : string -> string) (mdPath mdContent : string) : string :=
  Template.htmlTemplate (pageTitle mdPath mdContent) (marked mdContent).

(** The record it returns (lines 108-113). *)
Definition pageOf (cwd mdPath mdContent : string) : PageInfo :=
  mkPageInfo (Path.relative (DIST_DIR cwd) (outPath cwd mdPath))
             (Path.relative (SRC_DIR cwd) mdPath)
             (pageTitle mdPath mdContent)
             (pageDepth (Path.relative (SRC_DIR cwd) mdPath)).

(** The path of the table of contents (line 327). *)
Definition tocPath (cwd : string) : string := Path.join (DIST_DIR cwd) "toc.html".

(** The text of the file at [p], empty when there is none. *)
Definition contentOf (disk : Disk) (p : string) : string :=
  default "" (files disk !! p).

(** The records of the sources [mdFiles], read from [disk]. *)
Definition pagesOf (cwd : string) (disk : Disk) (mdFiles : list string) : list PageInfo :=
  map (fun p => pageOf cwd p (contentOf disk p)) mdFiles.

(** A path the walk from [cwd] can return: below [cwd], with a first
    component that is not ["dist"], and with [.md] at the end. *)
Definition isSource (cwd p : string) : Prop :=
  exists stem c rest,
    p = Path.join cwd (stem ++ ".md") /\ stem ++ ".md" = c ++ rest /\
    Str_spec.occurs "/" c = false /\ c <> "dist" /\
    (rest = "" \/ exists t, rest = String "/" t).

(** What [mkdir] and [writeFile] need to find.  The embedding takes
    both to succeed; on a file system [mkdir] rejects where a file
    stands in the place of a directory it is to make, and [writeFile]
    where a directory stands in the place of the file.  [accepts disk
    outs out] tells that neither is the case for the output [out]: on
    [disk], and among the outputs [outs] of the same run. *)
Definition isFile (disk : Disk) (p : string) : bool :=
  match files disk !! p with Some _ => true | None => false end.

Definition isDirectory (disk : Disk) (p : string) : bool :=
  bool_decide (p ∈ dirs disk).

Definition accepts (disk : Disk) (outs : list string) (out : string) : bool :=
  negb (isDirectory disk out) &&
  forallb (fun a => negb (isFile disk a) && negb (existsb (String.eqb a) outs))
          (Path.ancestors (Path.dirname out)).

(** The files a build with the sources [mdFiles] writes. *)
Definition outputs (cwd : string) (mdFiles : list string) : list string :=
  tocPath cwd :: map (outPath cwd) mdFiles.

Definition writable (cwd : string) (disk : Disk) (mdFiles : list string) : bool :=
  forallb (accepts disk (outputs cwd mdFiles)) (outputs cwd mdFiles).

End Build_spec.

(** A small site, at which the properties of the build are
    evaluated: the working directory ["/w"] with two notes, one of them
    in a folder, and an output directory of an earlier build. *)
Module Example.

Definition tree : Entry :=
  Dir "w" true
    [File "a.md"; Dir "dist" true [File "old.md"]; Dir "n" true [File "b.md"]].

Definition disk : Disk :=
  mkDisk {[ "/w/a.md" := "# A"; "/w/n/b.md" := "text" ]} {[ "/w" ]}.

(** The same site with the note ["toc.md"] in place of ["a.md"]. *)
Definition tocTree : Entry :=
  Dir "w" true [File "toc.md"; Dir "n" true [File "b.md"]].

Definition tocDisk : Disk :=
  mkDisk {[ "/w/toc.md" := "# Contents"; "/w/n/b.md" := "text" ]} {[ "/w" ]}.

(** The first site with the folder ["n"] unreadable. *)
Definition lockedTree : Entry :=
  Dir "w" true [File "a.md"; Dir "n" false [File "b.md"]].

(** The disk of the first site without the text of ["/w/n/b.md"]. *)
Definition partDisk : Disk :=
  mkDisk {[ "/w/a.md" := "# A" ]} {[ "/w" ]}.

End Example.

(** What the table of contents shows, as text of the page. *)
Module Toc_spec.

(** The name of a folder as its item shows it (line 184). *)
Definition folderName (name : string) : string :=
  "<span class=" ++ Str.dq ++ "folder-name" ++ Str.dq ++ ">" ++ name ++ "</span>".

(** The link of a file item to [href] (line 161). *)
Definition fileLink (href : string) : string :=
  "<a href=" ++ Str.dq ++ href ++ Str.dq.

(** The text [x] stands in [s] in front of the text [y]. *)
Definition Before (x y s : string) : Prop :=
  exists pre mid post, s = pre ++ x ++ mid ++ y ++ post.

End Toc_spec.

(** * Properties *)

(** ** The sort *)

Module ArrayFacts.

Section Facts.
Context {A : Type}.
Variable cmp : A -> A -> Z.

Lemma place_perm (x : A) (l : list A) :
  Permutation (Array.place cmp x l) (x :: l).
Proof.
  induction l as [|y l IH]; simpl; [reflexivity|].
  destruct (cmp x y <=? 0); [reflexivity|].
  rewrite IH. apply perm_swap.
Qed.

Lemma sort_perm (l : list A) : Permutation (Array.sort cmp l) l.
Proof.
  induction l as [|x l IH]; simpl; [reflexivity|].
  rewrite place_perm. now constructor.
Qed.

Lemma sort_length (l : list A) :
  List.length (Array.sort cmp l) = List.length l.
Proof. apply Permutation_length, sort_perm. Qed.

(** A list that is in order already is left as it is. *)
Lemma sort_sorted_id (l : list A) :
  StronglySorted (Array.notAfter cmp) l -> Array.sort cmp l = l.
Proof.
  induction 1 as [|x l Hs IH Hx]; simpl; [reflexivity|].
  rewrite IH. destruct l as [|y l]; simpl; [reflexivity|].
  inversion Hx as [|? ? Hxy _]; subst. unfold Array.notAfter in Hxy.
  apply Z.leb_le in Hxy. now rewrite Hxy.
Qed.

Section WithConsistent.
Hypothesis Hc : Array.Consistent cmp.

Lemma after_before (a b : A) : 0 < cmp a b -> cmp b a < 0.
Proof. intros H. now apply (Array.cmp_flip cmp Hc). Qed.

Lemma tie_sym (a b : A) : cmp a b = 0 -> cmp b a = 0.
Proof.
  intros H.
  destruct (Z.lt_trichotomy (cmp b a) 0) as [Hlt|[Heq|Hgt]]; [|assumption|].
  - apply (Array.cmp_flip cmp Hc) in Hlt. lia.
  - apply after_before in Hgt. lia.
Qed.

Lemma before_trans (a b c : A) : cmp a b < 0 -> cmp b c <= 0 -> cmp a c < 0.
Proof.
  intros Hab Hbc.
  destruct (Z.lt_trichotomy (cmp a c) 0) as [Hlt|[Heq|Hgt]]; [assumption| |].
  - apply tie_sym in Heq.
    assert (cmp b a <= 0)
      by (apply (Array.cmp_trans cmp Hc) with c; [assumption|lia]).
    apply (Array.cmp_flip cmp Hc) in Hab. lia.
  - apply after_before in Hgt.
    assert (cmp b a <= 0)
      by (apply (Array.cmp_trans cmp Hc) with c; [assumption|lia]).
    apply (Array.cmp_flip cmp Hc) in Hab. lia.
Qed.

Lemma place_sorted (x : A) (l : list A) :
  StronglySorted (Array.notAfter cmp) l ->
  StronglySorted (Array.notAfter cmp) (Array.place cmp x l).
Proof.
  induction 1 as [|y l Hs IH Hy]; simpl.
  - repeat constructor.
  - destruct (cmp x y <=? 0) eqn:E.
    + apply Z.leb_le in E. constructor; [now constructor|].
      constructor; [exact E|].
      eapply List.Forall_impl; [|exact Hy]. intros z Hz.
      unfold Array.notAfter in *. now apply (Array.cmp_trans cmp Hc) with y.
    + apply Z.leb_gt in E. constructor; [exact IH|].
      rewrite place_perm. constructor; [|exact Hy].
      unfold Array.notAfter. apply after_before in E. lia.
Qed.

(** The result of the sort is in order. *)
Lemma sort_sorted (l : list A) :
  StronglySorted (Array.notAfter cmp) (Array.sort cmp l).
Proof.
  induction l as [|x l IH]; simpl; [constructor|].
  now apply place_sorted.
Qed.

Lemma place_strict (x : A) (l : list A) :
  Forall (fun y => cmp x y <> 0) l ->
  StronglySorted (Array.before cmp) l ->
  StronglySorted (Array.before cmp) (Array.place cmp x l).
Proof.
  intros Hx Hs. revert Hx.
  induction Hs as [|y l Hs IH Hy]; simpl; intros Hx.
  - repeat constructor.
  - inversion Hx as [|? ? Hxy Hxl]; subst.
    destruct (cmp x y <=? 0) eqn:E.
    + apply Z.leb_le in E. constructor; [now constructor|].
      assert (Hlt : cmp x y < 0) by lia.
      constructor; [exact Hlt|].
      eapply List.Forall_impl; [|exact Hy]. intros z Hz.
      unfold Array.before in *. apply before_trans with y; [assumption|lia].
    + apply Z.leb_gt in E. constructor; [now apply IH|].
      rewrite place_perm. constructor; [|exact Hy].
      now apply after_before.
Qed.

(** Without ties the result is strictly in order. *)
Lemma sort_strict (l : list A) :
  Array.TieFree cmp l -> StronglySorted (Array.before cmp) (Array.sort cmp l).
Proof.
  induction 1 as [|x l Hx Hl IH]; simpl; [constructor|].
  apply place_strict; [|exact IH].
  now rewrite sort_perm.
Qed.

(** A strictly ordered list is the only ordered arrangement of its
    elements. *)
Lemma sorted_unique (s1 s2 : list A) :
  StronglySorted (Array.before cmp) s1 ->
  StronglySorted (Array.notAfter cmp) s2 ->
  Permutation s1 s2 -> s1 = s2.
Proof.
  intros H1. revert s2.
  induction H1 as [|a t1 Ht1 IH Ha]; intros s2 H2 Hp.
  - apply Permutation_nil in Hp. now subst.
  - destruct s2 as [|b t2].
    { symmetry in Hp. now apply Permutation_nil in Hp. }
    inversion H2 as [|? ? Ht2 Hb]; subst.
    assert (Hin_a : In a (b :: t2))
      by (eapply Permutation_in; [exact Hp|now left]).
    assert (Hin_b : In b (a :: t1))
      by (eapply Permutation_in; [symmetry; exact Hp|now left]).
    assert (Heq : a = b).
    { destruct Hin_a as [->|Hat2]; [reflexivity|].
      destruct Hin_b as [->|Hbt1]; [reflexivity|].
      rewrite List.Forall_forall in Ha, Hb.
      specialize (Ha b Hbt1). specialize (Hb a Hat2).
      unfold Array.before, Array.notAfter in *.
      apply (Array.cmp_flip cmp Hc) in Ha. lia. }
    subst b. f_equal. apply IH; [assumption|].
    now apply Permutation_cons_inv in Hp.
Qed.

(** Without ties the result of the sort depends on the elements
    only, not on their order in the input. *)
Lemma sort_perm_eq (l l' : list A) :
  Array.TieFree cmp l -> Permutation l l' ->
  Array.sort cmp l = Array.sort cmp l'.
Proof.
  intros Ht Hp. apply sorted_unique.
  - now apply sort_strict.
  - apply sort_sorted.
  - rewrite !sort_perm. exact Hp.
Qed.

(** The sort of any arrangement of a strictly ordered list. *)
Lemma sort_of_perm (l s : list A) :
  StronglySorted (Array.before cmp) s -> Permutation l s ->
  Array.sort cmp l = s.
Proof.
  intros Hs Hp. symmetry. apply sorted_unique; [assumption|apply sort_sorted|].
  rewrite sort_perm. now symmetry.
Qed.

Lemma place_filter (f : A -> bool) (x : A) (l : list A) :
  StronglySorted (Array.notAfter cmp) l ->
  List.filter f (Array.place cmp x l) =
  if f x then Array.place cmp x (List.filter f l) else List.filter f l.
Proof.
  induction 1 as [|y l Hs IH Hy]; simpl.
  - now destruct (f x).
  - destruct (cmp x y <=? 0) eqn:E; simpl.
    + destruct (f x) eqn:Fx; [|reflexivity].
      destruct (f y) eqn:Fy; simpl; [now rewrite E|].
      apply Z.leb_le in E.
      assert (Hall : Forall (fun z => cmp x z <= 0) (List.filter f l)).
      { apply List.Forall_forall. intros z Hz. apply filter_In in Hz as [Hz _].
        rewrite List.Forall_forall in Hy. specialize (Hy z Hz).
        unfold Array.notAfter in Hy. now apply (Array.cmp_trans cmp Hc) with y. }
      destruct (List.filter f l) as [|z fl]; [reflexivity|].
      inversion Hall as [|? ? Hz _]; subst. simpl.
      apply Z.leb_le in Hz. now rewrite Hz.
    + rewrite IH. destruct (f y) eqn:Fy; simpl.
      * destruct (f x); [|reflexivity]. now rewrite E.
      * reflexivity.
Qed.

(** The sort is stable: it commutes with the removal of elements. *)
Lemma sort_filter (f : A -> bool) (l : list A) :
  List.filter f (Array.sort cmp l) = Array.sort cmp (List.filter f l).
Proof.
  induction l as [|x l IH]; simpl; [reflexivity|].
  rewrite place_filter by apply sort_sorted.
  rewrite IH. now destruct (f x).
Qed.

End WithConsistent.
End Facts.

(** A comparator that looks at a component. *)
Lemma Consistent_on {A B : Type} (cmp : B -> B -> Z) (f : A -> B) :
  Array.Consistent cmp -> Array.Consistent (fun a b => cmp (f a) (f b)).
Proof.
  intros [Hf Ht]. split; intros.
  - apply Hf.
  - now apply Ht with (f b).
Qed.

Lemma place_map {A B : Type} (cmp : B -> B -> Z) (f : A -> B) (x : A) (l : list A) :
  map f (Array.place (fun a b => cmp (f a) (f b)) x l) =
  Array.place cmp (f x) (map f l).
Proof.
  induction l as [|y l IH]; simpl; [reflexivity|].
  destruct (cmp (f x) (f y) <=? 0); simpl; [reflexivity|]. now rewrite IH.
Qed.

(** Sorting by a component and taking the component commute. *)
Lemma sort_map {A B : Type} (cmp : B -> B -> Z) (f : A -> B) (l : list A) :
  map f (Array.sort (fun a b => cmp (f a) (f b)) l) = Array.sort cmp (map f l).
Proof.
  induction l as [|x l IH]; simpl; [reflexivity|].
  now rewrite place_map, IH.
Qed.

End ArrayFacts.

(** ** Strings and the two comparators of the examples *)

Module StrFacts.

Lemma compare_not_Gt_trans (a b c : string) :
  String.compare a b <> Gt -> String.compare b c <> Gt -> String.compare a c <> Gt.
Proof.
  intros Hab Hbc Hac.
  assert (Hca : String.compare c a = Lt)
    by (rewrite String.compare_antisym, Hac; reflexivity).
  destruct (String.compare a b) eqn:Eab; [| |congruence].
  - apply String.compare_eq_iff in Eab. subst b.
    rewrite String.compare_antisym, Hca in Hbc. simpl in Hbc. congruence.
  - destruct (String.compare b c) eqn:Ebc; [| |congruence].
    + apply String.compare_eq_iff in Ebc. subst c. congruence.
    + apply OrderedTypeEx.String_as_OT.cmp_lt in Eab, Ebc, Hca.
      pose proof (OrderedTypeEx.String_as_OT.lt_trans _ _ _ Eab Ebc) as Hlt.
      pose proof (OrderedTypeEx.String_as_OT.lt_trans _ _ _ Hlt Hca) as Hirr.
      apply OrderedTypeEx.String_as_OT.cmp_lt in Hirr.
      assert (String.compare a a = Eq)
        by (apply OrderedTypeEx.String_as_OT.cmp_eq; reflexivity).
      unfold OrderedTypeEx.String_as_OT.cmp in Hirr. congruence.
Qed.

(** The order of the code units is a consistent comparator. *)
Lemma codeUnitCompare_consistent : Array.Consistent Str.codeUnitCompare.
Proof.
  split.
  - intros a b. unfold Str.codeUnitCompare.
    rewrite (String.compare_antisym b a).
    destruct (String.compare a b); simpl; lia.
  - intros a b c. unfold Str.codeUnitCompare. intros Hab Hbc.
    assert (String.compare a c <> Gt).
    { apply compare_not_Gt_trans with b.
      - destruct (String.compare a b); [congruence|congruence|lia].
      - destruct (String.compare b c); [congruence|congruence|lia]. }
    destruct (String.compare a c); [lia|lia|congruence].
Qed.

(** It ties equal strings only. *)
Lemma codeUnitCompare_tie (a b : string) :
  Str.codeUnitCompare a b = 0 -> a = b.
Proof.
  unfold Str.codeUnitCompare. destruct (String.compare a b) eqn:E; try lia.
  intros _. now apply String.compare_eq_iff.
Qed.

(** The comparator of the collation keys is consistent as well. *)
Lemma compareKeys_consistent : Array.Consistent Str_spec.compareKeys.
Proof.
  apply (ArrayFacts.Consistent_on Str.codeUnitCompare Str_spec.collationKey).
  exact codeUnitCompare_consistent.
Qed.

End StrFacts.

(** ** Strings: concatenation, prefixes and suffixes *)

Module AppendFacts.

#[local] Arguments String.append : simpl nomatch.

Lemma append_assoc (a b c : string) : ((a ++ b) ++ c = a ++ (b ++ c))%string.
Proof. induction a as [|x a IH]; simpl; [reflexivity|now f_equal]. Qed.

Lemma append_nil_r (a : string) : (a ++ "" = a)%string.
Proof. induction a as [|x a IH]; simpl; [reflexivity|now f_equal]. Qed.

Lemma length_append (a b : string) :
  String.length (a ++ b) = (String.length a + String.length b)%nat.
Proof. induction a as [|x a IH]; simpl; [reflexivity|now f_equal]. Qed.

Lemma prefix_append (a b : string) : String.prefix a (a ++ b) = true.
Proof.
  induction a as [|x a IH]; simpl; [now destruct b|].
  destruct (ascii_dec x x); [exact IH|contradiction].
Qed.

Lemma substring_all (a : string) : substring 0 (String.length a) a = a.
Proof. induction a as [|x a IH]; simpl; [reflexivity|now f_equal]. Qed.

Lemma substring_front (a b : string) :
  substring 0 (String.length a) (a ++ b) = a.
Proof.
  induction a as [|x a IH]; simpl; [now destruct b|now f_equal].
Qed.

Lemma substring_back (a b : string) :
  substring (String.length a) (String.length b) (a ++ b) = b.
Proof.
  induction a as [|x a IH]; simpl; [apply substring_all|exact IH].
Qed.

Lemma endsWith_append (s p : string) : Str.endsWith p (s ++ p) = true.
Proof.
  unfold Str.endsWith. rewrite length_append.
  replace (String.length s + String.length p - String.length p)%nat
    with (String.length s) by lia.
  rewrite substring_back, String.eqb_refl.
  apply andb_true_intro. split; [apply Nat.leb_le; lia|reflexivity].
Qed.

Lemma dropEnd_append (s p : string) : Str.dropEnd (String.length p) (s ++ p) = s.
Proof.
  unfold Str.dropEnd. rewrite length_append.
  replace (String.length s + String.length p - String.length p)%nat
    with (String.length s) by lia.
  apply substring_front.
Qed.

(** [relative] undoes [join]. *)
Lemma relative_join (dir rest : string) :
  Path.relative dir (Path.join dir rest) = rest.
Proof.
  unfold Path.relative, Path.join, Str.startsWith.
  rewrite <- (append_assoc dir "/" rest).
  remember (dir ++ "/")%string as pre.
  rewrite prefix_append, (length_append pre rest).
  replace (String.length pre + String.length rest - String.length pre)%nat
    with (String.length rest) by lia.
  apply substring_back.
Qed.

(** [.md] at the end becomes [.html]. *)
Lemma replaceMdExt_md (stem : string) :
  Regex.replaceMdExt (stem ++ ".md") = (stem ++ ".html")%string.
Proof.
  unfold Regex.replaceMdExt. rewrite endsWith_append.
  change (Str.dropEnd 3 (stem ++ ".md"))
    with (Str.dropEnd (String.length ".md") (stem ++ ".md")).
  now rewrite dropEnd_append.
Qed.

(** A string without separator in front of the end or of a separator
    is determined by the whole. *)
Lemma segment_unique (c c' r r' : string) :
  Str_spec.occurs "/" c = false -> Str_spec.occurs "/" c' = false ->
  (r = "" \/ exists t, r = String "/" t) ->
  (r' = "" \/ exists t, r' = String "/" t) ->
  (c ++ r = c' ++ r')%string -> c = c' /\ r = r'.
Proof.
  revert c'. induction c as [|x c IH]; intros [|x' c'] Hc Hc' Hr Hr' Heq; simpl in *.
  - now split.
  - exfalso. destruct Hr as [->|[t ->]]; [discriminate|].
    injection Heq as <- _. simpl in Hc'. discriminate.
  - exfalso. destruct Hr' as [->|[t ->]]; [discriminate|].
    injection Heq as -> _. simpl in Hc. discriminate.
  - injection Heq as -> Heq.
    apply orb_false_elim in Hc as [_ Hc]. apply orb_false_elim in Hc' as [_ Hc'].
    destruct (IH c' Hc Hc' Hr Hr' Heq) as [-> ->]. now split.
Qed.

End AppendFacts.

(** ** Paths *)

Module PathFacts.

#[local] Arguments String.append : simpl nomatch.

Lemma split_nonempty (sep : ascii) (s : string) : Str.split sep s <> [].
Proof.
  destruct s as [|c s]; simpl; [discriminate|].
  destruct (Ascii.eqb c sep); [discriminate|].
  destruct (Str.split sep s); discriminate.
Qed.

Lemma split_no_sep (sep : ascii) (s : string) :
  Str_spec.occurs sep s = false -> Str.split sep s = [s].
Proof.
  induction s as [|c s IH]; simpl; [reflexivity|].
  intros H. apply orb_false_elim in H as [Hc Hs].
  rewrite Hc, (IH Hs). reflexivity.
Qed.

Lemma split_app_sep (sep : ascii) (a b : string) :
  Str.split sep (a ++ String sep b) = (Str.split sep a ++ Str.split sep b)%list.
Proof.
  induction a as [|c a IH]; simpl.
  - now rewrite Ascii.eqb_refl.
  - destruct (Ascii.eqb c sep); [now rewrite IH|].
    rewrite IH. pose proof (split_nonempty sep a) as Hne.
    destruct (Str.split sep a); [contradiction|reflexivity].
Qed.

Lemma occurs_append (c : ascii) (a b : string) :
  Str_spec.occurs c (a ++ b) = Str_spec.occurs c a || Str_spec.occurs c b.
Proof.
  induction a as [|x a IH]; simpl; [reflexivity|].
  now rewrite IH, orb_assoc.
Qed.

(** The last segment of a joined path is the name joined. *)
Lemma last_segment_join (dir name : string) :
  name <> "" -> Str_spec.occurs "/" name = false ->
  List.last (List.filter Str.Boolean (Str.split "/"%char (Path.join dir name))) "" = name.
Proof.
  intros Hne Hno. unfold Path.join.
  change (dir ++ "/" ++ name)%string with (dir ++ String "/" name)%string.
  rewrite split_app_sep, (split_no_sep _ _ Hno), List.filter_app. simpl.
  assert (Hb : Str.Boolean name = true).
  { unfold Str.Boolean. apply negb_true_iff. now apply String.eqb_neq. }
  rewrite Hb. apply List.last_last.
Qed.

(** The file name of a source without its extension. *)
Lemma basename_join (dir stem : string) :
  stem <> "" -> Str_spec.occurs "/" stem = false ->
  Path.basename (Path.join dir (stem ++ ".md")) ".md" = stem.
Proof.
  intros Hne Hno. unfold Path.basename.
  rewrite last_segment_join.
  - rewrite AppendFacts.endsWith_append.
    assert (Hneq : String.eqb (stem ++ ".md") ".md" = false).
    { apply String.eqb_neq. intros H. apply (f_equal String.length) in H.
      rewrite AppendFacts.length_append in H. simpl in H.
      destruct stem; [contradiction|simpl in H; lia]. }
    rewrite Hneq. simpl. apply (AppendFacts.dropEnd_append stem ".md").
  - destruct stem; [contradiction|discriminate].
  - rewrite occurs_append, Hno. reflexivity.
Qed.

End PathFacts.

(** ** The title of a page *)

Module RegexFacts.

Import Title_spec.

#[local] Arguments String.append : simpl nomatch.

Lemma append_same_length (a b a' b' : string) :
  (a ++ b = a' ++ b')%string -> String.length a = String.length a' ->
  a = a' /\ b = b'.
Proof.
  revert a'. induction a as [|x a IH]; intros [|x' a'] Heq Hlen; simpl in *;
    try discriminate; [now split|].
  injection Heq as -> Heq. injection Hlen as Hlen.
  destruct (IH a' Heq Hlen) as [-> ->]. now split.
Qed.

Lemma snoc_inj (a a' : string) (c c' : ascii) :
  (a ++ String c "" = a' ++ String c' "")%string -> a = a' /\ c = c'.
Proof.
  intros H.
  assert (Hlen : String.length a = String.length a').
  { apply (f_equal String.length) in H.
    rewrite !AppendFacts.length_append in H. simpl in H. lia. }
  destruct (append_same_length _ _ _ _ H Hlen) as [-> Hc].
  injection Hc as ->. now split.
Qed.

(** What a successful [cls+] has taken, and that no longer run leads to
    a match. *)
Lemma many1_None {R : Type} (cls : ascii -> bool) (s : string) :
  forall (k : string -> string -> option R),
    Regex.many1 cls s k = None ->
    forall m rest, s = (m ++ rest)%string -> m <> "" ->
                   Str_spec.every cls m = true -> k m rest = None.
Proof.
  induction s as [|c s IH]; intros k Hrun m rest Hs Hm Hev.
  - destruct m; [contradiction|discriminate].
  - destruct m as [|c' m]; [contradiction|]. simpl in Hs. injection Hs as <- Hs.
    simpl in Hev. apply andb_prop in Hev as [Hc Hev].
    simpl in Hrun. rewrite Hc in Hrun.
    destruct (Regex.many1 cls s (fun m0 rest0 => k (String c m0) rest0)) eqn:E;
      [discriminate|].
    destruct m as [|c'' m].
    + simpl in Hs. now subst rest.
    + apply (IH _ E (String c'' m) rest Hs); [discriminate|exact Hev].
Qed.

Lemma many1_Some {R : Type} (cls : ascii -> bool) (s : string) :
  forall (k : string -> string -> option R) (r : R),
    Regex.many1 cls s k = Some r ->
    exists m rest,
      s = (m ++ rest)%string /\ m <> "" /\ Str_spec.every cls m = true /\
      k m rest = Some r /\
      forall m' rest', s = (m' ++ rest')%string -> Str_spec.every cls m' = true ->
                       (String.length m < String.length m')%nat -> k m' rest' = None.
Proof.
  induction s as [|c s IH]; intros k r Hrun; simpl in Hrun; [discriminate|].
  destruct (cls c) eqn:Hc; [|discriminate].
  destruct (Regex.many1 cls s (fun m0 rest0 => k (String c m0) rest0)) as [r'|] eqn:E.
  - injection Hrun as ->.
    destruct (IH _ _ E) as (m & rest & -> & Hm & Hev & Hk & Hmax).
    exists (String c m), rest. repeat split; simpl.
    + discriminate.
    + now rewrite Hc, Hev.
    + exact Hk.
    + intros m' rest' Hs Hev' Hlen. destruct m' as [|c' m']; [simpl in Hlen; lia|].
      simpl in Hs. injection Hs as <- Hs. simpl in Hev'.
      apply andb_prop in Hev' as [_ Hev']. simpl in Hlen.
      apply (Hmax m' rest' Hs Hev'). lia.
  - exists (String c ""), s. repeat split; simpl.
    + discriminate.
    + now rewrite Hc.
    + exact Hrun.
    + intros m' rest' Hs Hev' Hlen. destruct m' as [|c' m']; [simpl in Hlen; lia|].
      simpl in Hs. injection Hs as <- Hs. simpl in Hev'.
      apply andb_prop in Hev' as [_ Hev'].
      destruct m' as [|c'' m']; [simpl in Hlen; lia|].
      apply (many1_None cls s _ E (String c'' m') rest' Hs); [discriminate|exact Hev'].
Qed.

Lemma matchHeading_None (s : string) :
  Regex.matchHeading s = None ->
  forall ws cap post, ~ HeadingHere s ws cap post.
Proof.
  intros Hrun ws cap post [Hs Hws_some Hws Hcap_some Hcap Heol].
  subst s. simpl in Hrun.
  pose proof (many1_None _ _ _ Hrun ws (cap ++ post)%string eq_refl Hws_some Hws) as H1.
  simpl in H1.
  pose proof (many1_None _ _ _ H1 cap post eq_refl Hcap_some Hcap) as H2.
  simpl in H2. rewrite Heol in H2. discriminate.
Qed.

Lemma matchHeading_Some (s cap : string) :
  Regex.matchHeading s = Some cap ->
  exists ws post,
    HeadingHere s ws cap post /\
    forall ws' cap' post',
      HeadingHere s ws' cap' post' ->
      (String.length ws' < String.length ws)%nat \/
      (String.length ws' = String.length ws /\
       (String.length cap' <= String.length cap)%nat).
Proof.
  intros Hrun. destruct s as [|c s1]; [discriminate|]. simpl in Hrun.
  destruct (Ascii.eqb c "#") eqn:Hc; [|discriminate].
  apply Ascii.eqb_eq in Hc. subst c.
  destruct (many1_Some _ _ _ _ Hrun) as (ws & s2 & -> & Hws_some & Hws & Hk1 & Hmax1).
  simpl in Hk1.
  destruct (many1_Some _ _ _ _ Hk1) as (m & post & -> & Hm_some & Hm & Hk2 & Hmax2).
  simpl in Hk2. destruct (Regex.atEol post) eqn:Heol; [|discriminate].
  injection Hk2 as ->.
  exists ws, post. split; [now constructor|].
  intros ws' cap' post' [Hs' Hws'_some Hws' Hcap'_some Hcap' Heol'].
  simpl in Hs'. injection Hs' as Hs'.
  destruct (Nat.lt_trichotomy (String.length ws') (String.length ws)) as [Hlt|[Heq|Hgt]].
  - now left.
  - right. split; [exact Heq|].
    symmetry in Heq. destruct (append_same_length _ _ _ _ Hs' Heq) as [<- Hrest].
    destruct (Nat.le_gt_cases (String.length cap') (String.length cap)) as [Hle|Hlong];
      [exact Hle|].
    pose proof (Hmax2 cap' post' Hrest Hcap' Hlong) as H. simpl in H.
    rewrite Heol' in H. discriminate.
  - exfalso.
    pose proof (Hmax1 ws' (cap' ++ post')%string Hs' Hws' Hgt) as H. simpl in H.
    pose proof (many1_None _ _ _ H cap' post' eq_refl Hcap'_some Hcap') as H2.
    simpl in H2. rewrite Heol' in H2. discriminate.
Qed.

Lemma search_eq (bol : bool) (s : string) :
  Regex.search bol s =
  match (if bol then Regex.matchHeading s else None) with
  | Some cap => Some cap
  | None =>
      match s with
      | EmptyString => None
      | String c s' => Regex.search (Regex.isLineTerminator c) s'
      end
  end.
Proof. destruct s; reflexivity. Qed.

(** A match that starts where [s] starts is a match at the front of
    [s]. *)
Lemma match_at_front (pre s pre' ws cap post : string) :
  HeadingMatch (pre ++ s) pre' ws cap post ->
  String.length pre = String.length pre' ->
  pre' = pre /\ atBol pre /\ HeadingHere s ws cap post.
Proof.
  intros [Ht Hbol Hws_some Hws Hcap_some Hcap Heol] Hlen.
  destruct (append_same_length _ _ _ _ Ht Hlen) as [-> Hs].
  repeat split; assumption.
Qed.

Lemma match_not_before (pre pre' ws cap post : string) :
  HeadingMatch pre pre' ws cap post ->
  (String.length pre' < String.length pre)%nat.
Proof.
  intros [Ht _ _ _ _ _ _]. apply (f_equal String.length) in Ht.
  rewrite !AppendFacts.length_append in Ht. simpl in Ht. lia.
Qed.

Lemma atBol_snoc (pre : string) (c : ascii) :
  Regex.isLineTerminator c = true <-> atBol (pre ++ String c "").
Proof.
  split.
  - intros Hc. right. now exists pre, c.
  - intros [H|(pre' & c' & H & Hc')].
    + destruct pre; discriminate.
    + apply snoc_inj in H as [_ ->]. exact Hc'.
Qed.

(** The search from the place behind [pre] on finds the first of the
    matches that start there or later, or there is none. *)
Lemma search_spec (s : string) :
  forall (pre : string) (bol : bool),
    (bol = true <-> atBol pre) ->
    match Regex.search bol s with
    | Some cap =>
        exists mid ws post,
          HeadingMatch (pre ++ s) (pre ++ mid) ws cap post /\
          forall pre' ws' cap' post',
            HeadingMatch (pre ++ s) pre' ws' cap' post' ->
            (String.length pre <= String.length pre')%nat ->
            precedes (pre ++ mid) ws cap pre' ws' cap'
    | None =>
        forall pre' ws' cap' post',
          HeadingMatch (pre ++ s) pre' ws' cap' post' ->
          (String.length pre <= String.length pre')%nat -> False
    end.
Proof.
  induction s as [|c s IH]; intros pre bol Hbol; rewrite search_eq.
  - destruct (if bol then Regex.matchHeading "" else None) as [cap|] eqn:E.
    + destruct bol; discriminate.
    + intros pre' ws' cap' post' Hm Hle.
      rewrite AppendFacts.append_nil_r in Hm.
      apply match_not_before in Hm. lia.
  - destruct (if bol then Regex.matchHeading (String c s) else None) as [cap|] eqn:E.
    + destruct bol; [|discriminate].
      destruct (matchHeading_Some _ _ E) as (ws & post & Hhere & Hfirst).
      exists "", ws, post. rewrite AppendFacts.append_nil_r. split.
      * destruct Hhere as [Hs ? ? ? ? ?].
        constructor; try assumption; [now rewrite Hs|now apply Hbol].
      * intros pre' ws' cap' post' Hm Hle.
        destruct (Nat.eq_dec (String.length pre) (String.length pre')) as [Heq|Hne];
          [|left; lia].
        right. split; [exact Heq|].
        destruct (match_at_front _ _ _ _ _ _ Hm Heq) as (_ & _ & Hhere').
        exact (Hfirst _ _ _ Hhere').
    + assert (Hnone : forall pre' ws' cap' post',
                 HeadingMatch (pre ++ String c s) pre' ws' cap' post' ->
                 String.length pre <> String.length pre').
      { intros pre' ws' cap' post' Hm Heq.
        destruct (match_at_front _ _ _ _ _ _ Hm Heq) as (_ & Hb & Hhere').
        destruct bol.
        - exact (matchHeading_None _ E _ _ _ Hhere').
        - apply Hbol in Hb. discriminate. }
      assert (Htext : (pre ++ String c s = (pre ++ String c "") ++ s)%string)
        by (now rewrite AppendFacts.append_assoc).
      assert (Hlen : String.length (pre ++ String c "") = S (String.length pre))
        by (rewrite AppendFacts.length_append; simpl; lia).
      specialize (IH (pre ++ String c "")%string (Regex.isLineTerminator c)
                     (atBol_snoc pre c)).
      destruct (Regex.search (Regex.isLineTerminator c) s) as [cap|].
      * destruct IH as (mid & ws & post & Hm & Hfirst).
        exists (String c mid), ws, post.
        assert (Hmid : (pre ++ String c mid = (pre ++ String c "") ++ mid)%string)
          by (now rewrite AppendFacts.append_assoc).
        rewrite Htext, Hmid. split; [exact Hm|].
        intros pre' ws' cap' post' Hm' Hle. apply (Hfirst _ _ _ _ Hm').
        rewrite <- Htext in Hm'. specialize (Hnone _ _ _ _ Hm'). lia.
      * intros pre' ws' cap' post' Hm' Hle.
        pose proof (Hnone _ _ _ _ Hm') as Hne.
        rewrite Htext in Hm'. apply (IH _ _ _ _ Hm'). lia.
Qed.

(** [h1Match] reports the group of the first match, when there is a
    match. *)
Lemma h1Match_Some (text cap : string) :
  Regex.h1Match text = Some cap -> FirstMatch text cap.
Proof.
  intros H. unfold Regex.h1Match in H.
  pose proof (search_spec text "" true) as Hs. rewrite H in Hs.
  destruct Hs as (mid & ws & post & Hm & Hfirst).
  - split; [now left|reflexivity].
  - exists mid, ws, post. split; [exact Hm|].
    intros pre' ws' cap' post' Hm'. apply (Hfirst _ _ _ _ Hm'). simpl. lia.
Qed.

Lemma h1Match_None (text : string) :
  Regex.h1Match text = None -> NoMatch text.
Proof.
  intros H. unfold Regex.h1Match in H.
  pose proof (search_spec text "" true) as Hs. rewrite H in Hs.
  intros pre ws cap post Hm. apply (Hs (conj (fun _ => or_introl eq_refl) (fun _ => eq_refl)) _ _ _ _ Hm).
  simpl. lia.
Qed.

End RegexFacts.

(** ** The table of contents *)

Module TocFacts.

Section Facts.
Variable localeCompare : string -> string -> Z.

Lemma place_paired {A B : Type} (cmp : A -> A -> Z) (r : A -> B) (x : A) (l : list A) :
  Array.place (fun a b => cmp (fst a) (fst b)) (x, r x) (map (fun c => (c, r c)) l) =
  map (fun c => (c, r c)) (Array.place cmp x l).
Proof.
  induction l as [|y l IH]; simpl; [reflexivity|].
  destruct (cmp x y <=? 0); simpl; [reflexivity|]. now rewrite IH.
Qed.

Lemma sort_paired {A B : Type} (cmp : A -> A -> Z) (r : A -> B) (l : list A) :
  Array.sort (fun a b => cmp (fst a) (fst b)) (map (fun c => (c, r c)) l) =
  map (fun c => (c, r c)) (Array.sort cmp l).
Proof.
  induction l as [|x l IH]; simpl; [reflexivity|].
  now rewrite IH, place_paired.
Qed.

(** [renderNode] on a folder, as the script has it: the children are
    sorted, each is rendered, the fragments are joined. *)
Lemma renderNode_folder (nm p : string) (cs : list TreeNode) :
  renderNode localeCompare (mkNode nm p cs None) =
  Template.folderItem nm
    (Str.join "" (map (renderNode localeCompare)
                      (renderedChildren localeCompare (mkNode nm p cs None)))).
Proof.
  unfold renderedChildren. simpl.
  rewrite (sort_paired (compareNodes localeCompare) (renderNode localeCompare)).
  rewrite map_map. simpl. reflexivity.
Qed.

Lemma renderNode_file (nm p : string) (cs : list TreeNode) (pg : PageInfo) :
  renderNode localeCompare (mkNode nm p cs (Some pg)) =
  Template.fileItem (path pg) (title pg).
Proof. reflexivity. Qed.

(** A page without segments leaves the tree as it is. *)
Lemma insertPage_no_parts (tree : TreeNode) (pg : PageInfo) :
  pathParts (path pg) = [] -> insertPage tree pg = tree.
Proof. intros H. unfold insertPage. now rewrite H. Qed.

Lemma fold_insertPage_hasParts (pages : list PageInfo) (tree : TreeNode) :
  fold_left insertPage pages tree =
  fold_left insertPage (List.filter Tree_spec.hasParts pages) tree.
Proof.
  revert tree. induction pages as [|pg pages IH]; intros tree; simpl; [reflexivity|].
  unfold Tree_spec.hasParts at 1. destruct (pathParts (path pg)) eqn:E.
  - rewrite insertPage_no_parts by exact E. apply IH.
  - simpl. apply IH.
Qed.

Section WithConsistent.
Hypothesis Hc : Array.Consistent localeCompare.

Lemma comparePages_consistent : Array.Consistent (comparePages localeCompare).
Proof. exact (ArrayFacts.Consistent_on localeCompare path Hc). Qed.

Lemma compareNodes_consistent : Array.Consistent (compareNodes localeCompare).
Proof.
  destruct Hc as [Hf Ht]. split.
  - intros a b. unfold compareNodes.
    destruct (isDir a), (isDir b); simpl; try lia; apply Hf.
  - intros a b c. unfold compareNodes.
    destruct (isDir a), (isDir b), (isDir c); simpl; try lia; apply Ht.
Qed.

(** Below the root a folder renders its folders in front of its
    files, and each of the two groups in the order of the names. *)
Lemma folder_children_order (node : TreeNode) :
  StronglySorted
    (fun a b =>
       (isDir a = false -> isDir b = false) /\
       (isDir a = isDir b -> localeCompare (name a) (name b) <= 0))
    (renderedChildren localeCompare node).
Proof.
  unfold renderedChildren.
  pose proof (ArrayFacts.sort_sorted _ compareNodes_consistent (children node)) as Hs.
  induction Hs as [|a l Hs IH Ha]; constructor; [exact IH|].
  eapply List.Forall_impl; [|exact Ha]. intros b Hab.
  unfold Array.notAfter, compareNodes in Hab.
  destruct (isDir a), (isDir b); simpl in Hab; split; try congruence; try lia;
    intros _; exact Hab.
Qed.
(** Two files of a folder, ["zeta.html"] in front of ["alpha.html"]
    in the tree, are rendered with ["alpha.html"] first. *)
Lemma folder_alpha_before_zeta (nm p pz pa : string) (gz ga : PageInfo) :
  localeCompare "alpha.html" "zeta.html" < 0 ->
  let zeta := mkNode "zeta.html" pz [] (Some gz) in
  let alpha := mkNode "alpha.html" pa [] (Some ga) in
  renderedChildren localeCompare (mkNode nm p [zeta; alpha] None) = [alpha; zeta].
Proof.
  intros Hlt zeta alpha. unfold renderedChildren. simpl.
  unfold compareNodes at 1. simpl.
  apply (Array.cmp_flip localeCompare Hc) in Hlt.
  destruct (localeCompare "zeta.html" "alpha.html" <=? 0) eqn:E; [|reflexivity].
  apply Z.leb_le in E. lia.
Qed.

End WithConsistent.
End Facts.

End TocFacts.

(** ** The shape of the tree *)

Module TreeFacts.

Import Tree_spec.

(** Induction on a tree, with the property at hand for every child. *)
Lemma TreeNode_induction (P : TreeNode -> Prop) :
  (forall n p cs pg, Forall P cs -> P (mkNode n p cs pg)) ->
  forall node, P node.
Proof.
  intros H. fix IH 1. intros [n p cs pg]. apply H.
  induction cs as [|c cs IHcs]; constructor; [apply IH|exact IHcs].
Qed.

Lemma updateFirst_Some found f l l' :
  updateFirst found f l = Some l' ->
  exists l1 c l2,
    l = (l1 ++ c :: l2)%list /\ found c = true /\
    Forall (fun x => found x = false) l1 /\ l' = (l1 ++ f c :: l2)%list.
Proof.
  revert l'. induction l as [|x l IH]; simpl; intros l' H; [discriminate|].
  destruct (found x) eqn:E.
  - inversion H; subst. exists [], x, l. repeat split; auto.
  - destruct (updateFirst found f l) as [r|]; [|discriminate].
    simpl in H. inversion H; subst.
    destruct (IH r eq_refl) as (l1 & c & l2 & -> & Hc & Hl1 & ->).
    exists (x :: l1), c, l2. repeat split; auto.
Qed.

Lemma updateFirst_None found f l :
  updateFirst found f l = None -> Forall (fun x => found x = false) l.
Proof.
  induction l as [|x l IH]; simpl; intros H; [constructor|].
  destruct (found x) eqn:E; [discriminate|].
  destruct (updateFirst found f l); [discriminate|].
  constructor; auto.
Qed.

(** The insertion changes neither the name nor the page of the node it
    starts from. *)
Lemma insertParts_name pg sofar parts node :
  name (insertParts pg sofar parts node) = name node.
Proof.
  destruct parts as [|part rest]; simpl; [reflexivity|].
  destruct (updateFirst _ _ _); reflexivity.
Qed.

Lemma insertParts_page pg sofar parts node :
  page (insertParts pg sofar parts node) = page node.
Proof.
  destruct parts as [|part rest]; simpl; [reflexivity|].
  destruct (updateFirst _ _ _); reflexivity.
Qed.

Lemma not_found_not_in (part : string) (cs : list TreeNode) :
  Forall (fun c => String.eqb (name c) part = false) cs ->
  ~ In part (map name cs).
Proof.
  intros H Hin. apply in_map_iff in Hin as (c & Hn & Hc).
  rewrite List.Forall_forall in H. specialize (H c Hc).
  apply String.eqb_neq in H. contradiction.
Qed.

Lemma NoDup_names_snoc (cs : list TreeNode) (c : TreeNode) :
  NoDup (map name cs) -> ~ In (name c) (map name cs) ->
  NoDup (map name (cs ++ [c])).
Proof.
  intros Hnd Hnin. rewrite map_app. simpl.
  apply NoDup_app. repeat split; [assumption| |apply NoDup_singleton].
  intros x Hx Hx'. apply list_elem_of_In in Hx, Hx'. simpl in Hx'.
  destruct Hx' as [<-|[]]. contradiction.
Qed.

(** One step of the insertion: the child of the name [part] is
    changed by [f], or a new child, changed by [f], is added. *)
Lemma step_namesDistinct (f : TreeNode -> TreeNode) (part : string)
    (node fresh : TreeNode) :
  (forall c, name (f c) = name c) ->
  (forall c, EveryNode namesDistinct c -> EveryNode namesDistinct (f c)) ->
  EveryNode namesDistinct node ->
  name fresh = part -> EveryNode namesDistinct fresh ->
  EveryNode namesDistinct
    match updateFirst (fun c => String.eqb (name c) part) f (children node) with
    | Some cs => mkNode (name node) (npath node) cs (page node)
    | None => mkNode (name node) (npath node) (children node ++ [f fresh]) (page node)
    end.
Proof.
  intros Hf_name Hf_ok Hn Hfresh Hfresh_ok.
  inversion Hn as [? Hnd Hcs]; subst. unfold namesDistinct in Hnd.
  destruct (updateFirst _ f (children node)) as [cs'|] eqn:E.
  - apply updateFirst_Some in E as (l1 & c & l2 & Hl & _ & _ & ->).
    rewrite Hl in Hnd, Hcs. constructor; simpl.
    + unfold namesDistinct. simpl.
      rewrite map_app in *. simpl in *. now rewrite Hf_name.
    + apply Forall_app in Hcs as [H1 H2]. inversion H2; subst.
      apply Forall_app. split; [assumption|]. constructor; [now apply Hf_ok|assumption].
  - apply updateFirst_None in E. constructor; simpl.
    + unfold namesDistinct. simpl. apply NoDup_names_snoc; [assumption|].
      rewrite Hf_name. now apply not_found_not_in.
    + apply Forall_app. split; [assumption|]. constructor; [|constructor].
      now apply Hf_ok.
Qed.

(** Whatever the pages, the insertion keeps the names of the children
    of every node distinct: a child of the name is reused. *)
Lemma insertParts_namesDistinct pg parts :
  forall sofar node,
    EveryNode namesDistinct node ->
    EveryNode namesDistinct (insertParts pg sofar parts node).
Proof.
  induction parts as [|part rest IH]; intros sofar node Hn; [exact Hn|].
  assert (Hleaf : forall pgo,
             EveryNode namesDistinct
               (mkNode part (Str.join "/" (sofar ++ [part])) [] pgo))
    by (intros; constructor; [apply NoDup_nil_2|constructor]).
  destruct rest as [|r rest].
  - apply (step_namesDistinct (fun c => c)); auto.
  - apply (step_namesDistinct (insertParts pg (sofar ++ [part]) (r :: rest))); auto.
    intros c. apply insertParts_name.
Qed.

(** The names of the children of every node of the tree are distinct,
    for every list of pages. *)
Lemma buildTree_namesDistinct (pages : list PageInfo) :
  EveryNode namesDistinct (buildTree pages).
Proof.
  unfold buildTree.
  assert (H : EveryNode namesDistinct root)
    by (constructor; [apply NoDup_nil_2|constructor]).
  revert H. generalize root. induction pages as [|pg pages IH]; intros tree H; simpl.
  - exact H.
  - apply IH. now apply insertParts_namesDistinct.
Qed.

Lemma Built_mono (F G : list string -> Prop) :
  (forall x, F x -> G x) ->
  forall node sofar, Built F sofar node -> Built G sofar node.
Proof.
  intros HFG. induction node as [n p cs pg IH] using TreeNode_induction.
  intros sofar HB. inversion HB; subst.
  - constructor. now apply HFG.
  - constructor; [assumption|].
    rewrite List.Forall_forall in *. intros c Hc. apply IH; auto.
Qed.

Lemma step_Built (F G : list string -> Prop) (f : TreeNode -> TreeNode)
    (part : string) (sofar : list string) (node fresh : TreeNode) :
  (forall x, F x -> G x) ->
  Built F sofar node -> page node = None ->
  (forall c, name (f c) = name c) ->
  (forall c, name c = part ->
             Built F (sofar ++ [part])%list c -> Built G (sofar ++ [part])%list (f c)) ->
  name fresh = part -> Built G (sofar ++ [part])%list (f fresh) ->
  Built G sofar
    match updateFirst (fun c => String.eqb (name c) part) f (children node) with
    | Some cs => mkNode (name node) (npath node) cs (page node)
    | None => mkNode (name node) (npath node) (children node ++ [f fresh]) (page node)
    end.
Proof.
  intros HFG HB Hpage Hf_name Hf_ok Hfresh Hfresh_ok.
  inversion HB as [|? n p cs Hnd Hcs]; subst; [discriminate|]. simpl in *.
  destruct (updateFirst _ f cs) as [cs'|] eqn:E.
  - apply updateFirst_Some in E as (l1 & c & l2 & -> & Hc & _ & ->).
    apply String.eqb_eq in Hc.
    constructor.
    + rewrite map_app in *. simpl in *. now rewrite Hf_name.
    + apply Forall_app in Hcs as [H1 H2]. inversion H2 as [|? ? Hc_ok Hl2]; subst.
      apply Forall_app. split.
      * eapply List.Forall_impl; [|exact H1]. intros a Ha. now apply Built_mono with F.
      * constructor.
        -- rewrite Hf_name, Hc. apply Hf_ok; [assumption|now rewrite <- Hc].
        -- eapply List.Forall_impl; [|exact Hl2]. intros a Ha. now apply Built_mono with F.
  - apply updateFirst_None in E. constructor.
    + apply NoDup_names_snoc; [assumption|].
      rewrite Hf_name. now apply not_found_not_in.
    + apply Forall_app. split.
      * eapply List.Forall_impl; [|exact Hcs]. intros a Ha. now apply Built_mono with F.
      * constructor; [|constructor]. now rewrite Hf_name.
Qed.

(** The insertion of the segments [parts] below a folder at [sofar]
    keeps the invariant, when none of the places the walk goes through
    holds a page. *)
Lemma insertParts_Built pg parts :
  forall (F : list string -> Prop) sofar node,
    Built F sofar node -> page node = None ->
    (forall k, (0 < k < List.length parts)%nat -> ~ F (sofar ++ take k parts)%list) ->
    Built (fun x => F x \/ x = (sofar ++ parts)%list) sofar
          (insertParts pg sofar parts node).
Proof.
  induction parts as [|part rest IH]; intros F sofar node HB Hpage Hfree.
  - simpl. apply Built_mono with F; [now left|assumption].
  - assert (Hmono : forall x, F x -> F x \/ x = (sofar ++ part :: rest)%list)
      by (intros; now left).
    destruct rest as [|r rest].
    + apply (step_Built F _ (fun c => c)); auto.
      * intros c _ Hc. now apply Built_mono with F.
      * constructor. now right.
    + apply (step_Built F _ (insertParts pg (sofar ++ [part]) (r :: rest))); auto.
      * intros c. apply insertParts_name.
      * intros c Hname Hc.
        assert (Hdir : page c = None).
        { inversion Hc as [? ? ? ? HF|]; subst; [|reflexivity].
          exfalso. apply (Hfree 1%nat); [simpl; lia|exact HF]. }
        replace (sofar ++ part :: r :: rest)%list
          with ((sofar ++ [part]) ++ r :: rest)%list
          by (now rewrite <- app_assoc).
        apply IH; [assumption|assumption|].
        intros k Hk. rewrite <- app_assoc. simpl.
        apply (Hfree (S k)). simpl in *. lia.
      * replace (sofar ++ part :: r :: rest)%list
          with ((sofar ++ [part]) ++ r :: rest)%list
          by (now rewrite <- app_assoc).
        apply IH; [|reflexivity|].
        -- constructor; [apply NoDup_nil_2|constructor].
        -- intros k Hk. rewrite <- app_assoc. simpl.
           apply (Hfree (S k)). simpl in *. lia.
Qed.

Lemma properPrefix_take (parts : list string) (k : nat) :
  (0 < k < List.length parts)%nat -> properPrefix (take k parts) parts /\ take k parts <> [].
Proof.
  intros Hk. split.
  - exists (drop k parts). split.
    + intros H. apply (f_equal (@List.length string)) in H.
      rewrite length_drop in H. simpl in H. lia.
    + now rewrite take_drop.
  - intros H. apply (f_equal (@List.length string)) in H.
    rewrite length_take in H. simpl in H. lia.
Qed.

(** The tree of a list of pages satisfies the invariant for the
    segments of these pages, when no page lies at a proper prefix of
    the segments of another. *)
Lemma fold_insertPage_Built (pages : list PageInfo) :
  forall (F : list string -> Prop) tree,
    Built F [] tree -> page tree = None ->
    (forall q pre, In q pages -> properPrefix pre (pathParts (path q)) -> pre <> [] ->
                   ~ F pre /\ ~ (exists p, In p pages /\ pathParts (path p) = pre)) ->
    Built (fun x => F x \/ exists p, In p pages /\ pathParts (path p) = x) []
          (fold_left insertPage pages tree).
Proof.
  induction pages as [|q pages IH]; intros F tree HB Hpage Hfree; simpl.
  - apply Built_mono with F; [now left|assumption].
  - eapply Built_mono;
      [|apply (IH (fun x => F x \/ x = pathParts (path q)) (insertPage tree q))].
    + intros x [[HF|Hx]|(p & Hp & Hx)].
      * now left.
      * right. exists q. split; [now left|now symmetry].
      * right. exists p. split; [now right|assumption].
    + unfold insertPage.
      apply (insertParts_Built q (pathParts (path q)) F [] tree HB Hpage).
      intros k Hk. simpl.
      destruct (properPrefix_take _ _ Hk) as [Hpre Hne].
      now apply (Hfree q (take k (pathParts (path q)))); [left| |].
    + unfold insertPage. now rewrite insertParts_page.
    + intros q' pre Hq' Hpre Hne.
      destruct (Hfree q' pre (or_intror Hq') Hpre Hne) as [HnF Hnp]. split.
      * intros [HF|Hx]; [contradiction|].
        apply Hnp. exists q. split; [now left|now symmetry].
      * intros (p & Hp & Hx). apply Hnp. exists p. split; [now right|assumption].
Qed.

(** What the invariant says of the kinds of the nodes. *)
Lemma Built_kinds (F : list string -> Prop) :
  forall node sofar,
    Built F sofar node ->
    EveryNode (fun n => exactlyOneKind n /\ namesDistinct n) node.
Proof.
  induction node as [n p cs pg IH] using TreeNode_induction.
  intros sofar HB. inversion HB; subst.
  - constructor; [|constructor]. split.
    + right. unfold isFileNode, isDirectoryNode. simpl. repeat split; congruence.
    + unfold namesDistinct. simpl. apply NoDup_nil_2.
  - constructor.
    + split; [|assumption]. left. unfold isFileNode, isDirectoryNode. simpl.
      split; [reflexivity|]. intros [H _]. congruence.
    + simpl. rewrite List.Forall_forall in *. intros c Hc. eapply IH; eauto.
Qed.

End TreeFacts.

(** ** The walk over the directories *)

Module WalkFacts.

Import Walk_spec.

#[local] Arguments String.append : simpl nomatch.

Lemma Entry_induction (P : Entry -> Prop) :
  (forall n, P (File n)) -> (forall n, P (Other n)) ->
  (forall n r es, Forall P es -> P (Dir n r es)) ->
  forall d, P d.
Proof.
  intros Hf Ho Hd. fix IH 1. intros [n|n r es|n]; [apply Hf| |apply Ho].
  apply Hd. induction es as [|e es IHes]; constructor; [apply IH|exact IHes].
Qed.

Lemma excluded_skipped (n : string) : excluded n <-> skipped n = true.
Proof.
  unfold excluded, skipped. rewrite !orb_true_iff, !String.eqb_eq. tauto.
Qed.

Lemma not_excluded (n : string) : skipped n = false -> ~ excluded n.
Proof. intros H He. apply excluded_skipped in He. congruence. Qed.

Lemma FileAt_weaken n r e es cs n' r' :
  FileAt (Dir n r es) cs -> FileAt (Dir n' r' (e :: es)) cs.
Proof.
  intros H. inversion H; subst.
  - apply FileAt_here. now right.
  - eapply FileAt_down; [right; eassumption|reflexivity|assumption].
Qed.

Lemma Discovered_weaken dir n r e es p n' r' :
  Discovered dir (Dir n r es) p -> Discovered dir (Dir n' r' (e :: es)) p.
Proof.
  intros (cs & f & Hp & Hat & Hlast & Hmd & Hex).
  exists cs, f. repeat split; try assumption. eapply FileAt_weaken; eauto.
Qed.

Lemma Discovered_down dir n r e es p :
  skipped (entryName e) = false ->
  Discovered (Path.join dir (entryName e)) e p ->
  Discovered dir (Dir n r (e :: es)) p.
Proof.
  intros Hs (cs & f & Hp & Hat & Hlast & Hmd & Hex).
  exists (entryName e :: cs), f. repeat split.
  - exact Hp.
  - eapply FileAt_down; [now left|reflexivity|assumption].
  - destruct cs; [discriminate|exact Hlast].
  - exact Hmd.
  - constructor; [now apply not_excluded|assumption].
Qed.

(** The loop adds to [files] paths of markdown files of the entries,
    when the recursive call does. *)
Lemma forEntries_sound visit dir n r es :
  Forall (fun e => forall dir' files res,
            visit dir' e files = Some res ->
            exists new, res = (files ++ new)%list /\ Forall (Discovered dir' e) new) es ->
  forall files res,
    forEntries visit dir es files = Some res ->
    exists new, res = (files ++ new)%list /\ Forall (Discovered dir (Dir n r es)) new.
Proof.
  induction 1 as [|e es He Hes IH]; intros files res Hrun; simpl in Hrun.
  - inversion Hrun; subst. exists []. split; [now rewrite app_nil_r|constructor].
  - assert (Hrest : forall files' res',
               forEntries visit dir es files' = Some res' ->
               exists new, res' = (files' ++ new)%list /\
                           Forall (Discovered dir (Dir n r (e :: es))) new).
    { intros files' res' H'. destruct (IH files' res' H') as (new & -> & Hnew).
      exists new. split; [reflexivity|].
      eapply List.Forall_impl; [|exact Hnew]. intros p Hp.
      eapply Discovered_weaken; eauto. }
    destruct (skipped (entryName e)) eqn:Hskip; [now apply Hrest|].
    destruct e as [f|dn dr des|o].
    + destruct (Str.endsWith ".md" f) eqn:Hmd; [|now apply Hrest].
      destruct (Hrest _ _ Hrun) as (new & -> & Hnew).
      exists (Path.join dir f :: new). split; [now rewrite <- app_assoc|].
      constructor; [|assumption].
      exists [f], f. repeat split; try assumption.
      * apply FileAt_here. now left.
      * constructor; [now apply not_excluded|constructor].
    + destruct (visit (Path.join dir (entryName (Dir dn dr des))) (Dir dn dr des) files)
        as [files'|] eqn:Hvisit; [|discriminate].
      destruct (He _ _ _ Hvisit) as (new1 & -> & Hnew1).
      destruct (Hrest _ _ Hrun) as (new2 & -> & Hnew2).
      exists (new1 ++ new2)%list. split; [now rewrite app_assoc|].
      apply Forall_app. split; [|assumption].
      eapply List.Forall_impl; [|exact Hnew1]. intros p Hp.
      now apply Discovered_down.
    + now apply Hrest.
Qed.

(** Every path the walk adds is the path of a markdown file of the
    tree, reached through names that are not excluded. *)
Lemma walk_sound d :
  forall dir files res,
    getAllMarkdownFiles dir d files = Some res ->
    exists new, res = (files ++ new)%list /\ Forall (Discovered dir d) new.
Proof.
  induction d as [n|n|n r es IH] using Entry_induction;
    intros dir files res Hrun; simpl in Hrun; try discriminate.
  destruct r; [|discriminate].
  now apply (forEntries_sound getAllMarkdownFiles dir n true es IH).
Qed.

Lemma forEntries_total visit dir es :
  Forall (fun e => forall dir' files n r sub, e = Dir n r sub ->
                   exists res, visit dir' e files = Some res) es ->
  forall files, exists res, forEntries visit dir es files = Some res.
Proof.
  induction 1 as [|e es He Hes IH]; intros files; simpl; [eauto|].
  destruct (skipped (entryName e)); [apply IH|].
  destruct e as [f|dn dr des|o].
  - destruct (Str.endsWith ".md" f); apply IH.
  - destruct (He (Path.join dir (entryName (Dir dn dr des))) files dn dr des eq_refl)
      as [res ->].
    apply IH.
  - apply IH.
Qed.

(** On a directory all of whose directories can be read the walk
    returns. *)
Lemma walk_total d :
  Readable d ->
  forall dir files n r es, d = Dir n r es ->
    exists res, getAllMarkdownFiles dir d files = Some res.
Proof.
  induction d as [n|n|n r es IH] using Entry_induction;
    intros Hr dir files n' r' es' Heq; try discriminate.
  inversion Hr as [| |? ? Hes]; subst. simpl.
  apply forEntries_total.
  rewrite List.Forall_forall in *. intros e He dir' files' n0 r0 sub Heq0.
  apply (IH e He (Hes e He) dir' files' n0 r0 sub Heq0).
Qed.

Lemma below_tailOf cs : forall dir, below dir cs = (dir ++ tailOf cs)%string.
Proof.
  unfold below. induction cs as [|c cs IH]; intros dir; simpl.
  - now rewrite AppendFacts.append_nil_r.
  - rewrite IH. unfold Path.join.
    now rewrite !AppendFacts.append_assoc.
Qed.

Lemma tailOf_inj cs : forall cs',
  Forall entryNameOk cs -> Forall entryNameOk cs' ->
  tailOf cs = tailOf cs' -> cs = cs'.
Proof.
  assert (Hshape : forall l, tailOf l = "" \/ exists t, tailOf l = String "/" t).
  { intros [|c l]; [now left|right]. simpl. eauto. }
  induction cs as [|c cs IH]; intros [|c' cs'] Hok Hok' Heq; simpl in Heq;
    try reflexivity; try discriminate.
  injection Heq as Heq.
  inversion Hok as [|? ? [_ Hc] Hcs]; inversion Hok' as [|? ? [_ Hc'] Hcs']; subst.
  destruct (AppendFacts.segment_unique c c' _ _ Hc Hc' (Hshape cs) (Hshape cs') Heq)
    as [-> Ht].
  f_equal. now apply IH.
Qed.

(** Different components give different paths. *)
Lemma below_inj dir cs cs' :
  Forall entryNameOk cs -> Forall entryNameOk cs' ->
  below dir cs = below dir cs' -> cs = cs'.
Proof.
  intros Hok Hok' Heq. rewrite !below_tailOf in Heq.
  apply (String.app_inj dir) in Heq. now apply tailOf_inj.
Qed.

Lemma FileAt_names d :
  forall cs, NamesOk d -> FileAt d cs -> Forall entryNameOk cs.
Proof.
  induction d as [n|n|n r es IH] using Entry_induction;
    intros cs Hok Hat;
    inversion Hat as [? ? ? f Hin|? ? ? sub c cs' Hin Hname Hsub]; subst;
    inversion Hok as [| |? ? ? _ Hes]; subst;
    rewrite List.Forall_forall in Hes.
  - specialize (Hes _ Hin). inversion Hes; subst. now constructor.
  - rewrite List.Forall_forall in IH.
    pose proof (Hes _ Hin) as Hsubok. constructor.
    + inversion Hsubok; subst; assumption.
    + now apply (IH sub).
Qed.

End WalkFacts.

(** ** Conversion *)

Module BuildFacts.

(** A source that can be read is converted: the page written and the
    record returned. *)
Lemma convert_ok (marked : string -> string) (cwd mdPath mdContent : string)
    (disk : Disk) :
  files disk !! mdPath = Some mdContent ->
  let relativePath := Path.relative cwd mdPath in
  let htmlPath := Path.join (DIST_DIR cwd) (Regex.replaceMdExt relativePath) in
  let title := pageTitle mdPath mdContent in
  convertMarkdownToHtml marked cwd mdPath disk =
    (Some (mkPageInfo (Path.relative (DIST_DIR cwd) htmlPath) relativePath title
                      (pageDepth relativePath)),
     mkDisk (<[htmlPath := Template.htmlTemplate title (marked mdContent)]> (files disk))
            (list_to_set (Path.ancestors (Path.dirname htmlPath)) ∪ dirs disk)).
Proof.
  intros Hread. unfold convertMarkdownToHtml, await, readFile, mkdir, writeFile, resolve.
  rewrite Hread. reflexivity.
Qed.

(** The page written for a source lies at another path than the
    source. *)
Lemma html_path_differs (cwd stem : string) :
  Path.join (DIST_DIR cwd) (stem ++ ".html") <> Path.join cwd (stem ++ ".md").
Proof.
  intros H. apply (f_equal String.length) in H.
  unfold DIST_DIR, Path.join in H.
  rewrite !AppendFacts.length_append in H. simpl in H. lia.
Qed.

End BuildFacts.

Module TemplateFacts.

#[local] Arguments String.append : simpl nomatch.

(** The item of a folder followed by the item of a file shows the name
    of the folder in front of the link of the file. *)
Lemma folder_before_file (nm childHtml href title : string) :
  Toc_spec.Before (Toc_spec.folderName nm) (Toc_spec.fileLink href)
    (Template.folderItem nm childHtml ++ Template.fileItem href title).
Proof.
  exists ("
        <li>
          <div class=" ++ Str.dq ++ "folder" ++ Str.dq ++ " data-folder>
            <span class=" ++ Str.dq ++ "folder-icon" ++ Str.dq ++ "></span>
            ")%string,
         ("
          </div>
          <ul class=" ++ Str.dq ++ "folder-content" ++ Str.dq ++ ">
            " ++ childHtml ++ "
          </ul>
        </li>" ++ "
        <li>
          ")%string,
         (" class=" ++ Str.dq ++ "file-link" ++ Str.dq ++ ">
            <span class=" ++ Str.dq ++ "file-icon" ++ Str.dq ++ "></span>
            <span>" ++ title ++ "</span>
          </a>
        </li>")%string.
  unfold Template.folderItem, Template.fileItem, Toc_spec.folderName, Toc_spec.fileLink.
  rewrite !AppendFacts.append_assoc. reflexivity.
Qed.

(** The two files of the folder of the example, as [renderNode] puts
    them: in the order of their names, and as they stand in the tree
    when the names tie. *)
Lemma two_files_rendered
    (localeCompare : string -> string -> Z)
    (nm p nb pb' nc pc' : string) (gb gc : PageInfo) :
  renderNode localeCompare
    (mkNode nm p [mkNode nb pb' [] (Some gb); mkNode nc pc' [] (Some gc)] None) =
  Template.folderItem nm
    (if localeCompare nb nc <=? 0
     then Template.fileItem (path gb) (title gb) ++ Template.fileItem (path gc) (title gc)
     else Template.fileItem (path gc) (title gc) ++ Template.fileItem (path gb) (title gb)).
Proof.
  cbn [renderNode map Array.sort Array.place fst snd compareNodes isDir page name
       negb andb].
  destruct (localeCompare nb nc <=? 0); reflexivity.
Qed.

End TemplateFacts.

(** * The claims *)

(** C1 (the order at the root).  The claim asks for folders in front of
    files at every folder, the root included.  The script sorts the
    children inside [renderNode] only (lines 168-176) and renders the
    children of the root as they are (line 193).  For the pages
    ["a.html"] and ["b/c.html"], which every collation sorts in this
    order, the file ["a.html"] is rendered in front of the folder
    ["b"]. *)
Theorem root_renders_file_before_folder
    (localeCompare : string -> string -> Z) (r1 t1 r2 t2 : string) (d1 d2 : Z) :
  localeCompare "a.html" "b/c.html" <= 0 ->
  let a := mkPageInfo "a.html" r1 t1 d1 in
  let b := mkPageInfo "b/c.html" r2 t2 d2 in
  let tree := buildTree (sortedPages localeCompare [a; b]) in
  map (fun n => (name n, isDir n)) (renderedRootChildren tree)
    = [("a.html", false); ("b", true)] /\
  innerTree localeCompare tree =
    Template.fileItem "a.html" t1 ++
    Template.folderItem "b" (Template.fileItem "b/c.html" t2).
Proof.
  intros Hab a b tree.
  assert (Hs : sortedPages localeCompare [a; b] = [a; b]).
  { unfold sortedPages. simpl. unfold comparePages at 1. simpl.
    apply Z.leb_le in Hab. now rewrite Hab. }
  subst tree. rewrite Hs. split; reflexivity.
Qed.

(** [root_renders_file_before_folder] at a concrete input. *)
Lemma root_renders_file_before_folder_witness :
  let tree :=
    buildTree (sortedPages Str.codeUnitCompare
                 [mkPageInfo "a.html" "a.md" "A" 0; mkPageInfo "b/c.html" "b/c.md" "C" 1]) in
  map (fun n => (name n, isDir n)) (renderedRootChildren tree)
    = [("a.html", false); ("b", true)] /\
  innerTree Str.codeUnitCompare tree =
    Template.fileItem "a.html" "A" ++
    Template.folderItem "b" (Template.fileItem "b/c.html" "C").
Proof.
  apply (root_renders_file_before_folder Str.codeUnitCompare "a.md" "A" "b/c.md" "C" 0 1).
  vm_compute. discriminate.
Defined.

(** C2 (the example tree).  The pages ["a/b.html"], ["a/c.html"] and
    ["d.html"], given in any order, build a root with two children: the
    folder ["a"] holding the files ["b.html"] and ["c.html"], and the
    file ["d.html"].  The rendering is the item of the folder ["a"],
    with its two files in the order of their names, followed by the
    item of the file ["d.html"]: the name of the folder stands in front
    of the link to ["d.html"].  The comparator is any consistent one
    that sorts the three paths as every collation does. *)
Theorem example_tree
    (localeCompare : string -> string -> Z)
    (rb tb rc tc rd td : string) (db dc dd : Z) (pages : list PageInfo) :
  let pb := mkPageInfo "a/b.html" rb tb db in
  let pc := mkPageInfo "a/c.html" rc tc dc in
  let pd := mkPageInfo "d.html" rd td dd in
  let nodeA :=
    mkNode "a" "a"
      [mkNode "b.html" "a/b.html" [] (Some pb);
       mkNode "c.html" "a/c.html" [] (Some pc)] None in
  let nodeD := mkNode "d.html" "d.html" [] (Some pd) in
  let itemB := Template.fileItem "a/b.html" tb in
  let itemC := Template.fileItem "a/c.html" tc in
  let itemA :=
    Template.folderItem "a"
      (if localeCompare "b.html" "c.html" <=? 0
       then itemB ++ itemC else itemC ++ itemB) in
  let itemD := Template.fileItem "d.html" td in
  Array.Consistent localeCompare ->
  localeCompare "a/b.html" "a/c.html" < 0 ->
  localeCompare "a/c.html" "d.html" < 0 ->
  Permutation pages [pb; pc; pd] ->
  buildTree (sortedPages localeCompare pages) =
    mkNode "Project" "" [nodeA; nodeD] None /\
  innerTree localeCompare (buildTree (sortedPages localeCompare pages)) =
    itemA ++ itemD /\
  generateTocHtml localeCompare pages = Template.tocPage (itemA ++ itemD) "3" /\
  Toc_spec.Before (Toc_spec.folderName "a") (Toc_spec.fileLink "d.html")
    (innerTree localeCompare (buildTree (sortedPages localeCompare pages))).
Proof.
  intros pb pc pd nodeA nodeD itemB itemC itemA itemD Hc Hbc Hcd Hp.
  assert (Hs : sortedPages localeCompare pages = [pb; pc; pd]).
  { unfold sortedPages.
    apply (ArrayFacts.sort_of_perm _ (TocFacts.comparePages_consistent _ Hc));
      [|exact Hp].
    assert (Hbd : localeCompare "a/b.html" "d.html" < 0)
      by (apply (ArrayFacts.before_trans _ Hc) with "a/c.html"; [assumption|lia]).
    repeat constructor; unfold Array.before, comparePages; simpl; assumption. }
  assert (Ht : buildTree [pb; pc; pd] = mkNode "Project" "" [nodeA; nodeD] None)
    by reflexivity.
  assert (Hi : innerTree localeCompare (mkNode "Project" "" [nodeA; nodeD] None) =
               (itemA ++ itemD)%string).
  { unfold innerTree, renderedRootChildren, nodeA.
    cbn [children map Str.join String.concat].
    rewrite TemplateFacts.two_files_rendered. reflexivity. }
  unfold generateTocHtml. rewrite Hs, Ht, Hi.
  repeat split; try reflexivity.
  apply TemplateFacts.folder_before_file.
Qed.

(** [example_tree] at a concrete input. *)
Lemma example_tree_witness :
  let pb := mkPageInfo "a/b.html" "a/b.md" "B" 1 in
  let pc := mkPageInfo "a/c.html" "a/c.md" "C" 1 in
  let pd := mkPageInfo "d.html" "d.md" "D" 0 in
  let nodeA :=
    mkNode "a" "a"
      [mkNode "b.html" "a/b.html" [] (Some pb);
       mkNode "c.html" "a/c.html" [] (Some pc)] None in
  let nodeD := mkNode "d.html" "d.html" [] (Some pd) in
  let itemA :=
    Template.folderItem "a"
      (Template.fileItem "a/b.html" "B" ++ Template.fileItem "a/c.html" "C") in
  let itemD := Template.fileItem "d.html" "D" in
  buildTree (sortedPages Str.codeUnitCompare [pd; pc; pb]) =
    mkNode "Project" "" [nodeA; nodeD] None /\
  innerTree Str.codeUnitCompare (buildTree (sortedPages Str.codeUnitCompare [pd; pc; pb])) =
    itemA ++ itemD /\
  generateTocHtml Str.codeUnitCompare [pd; pc; pb] = Template.tocPage (itemA ++ itemD) "3" /\
  Toc_spec.Before (Toc_spec.folderName "a") (Toc_spec.fileLink "d.html")
    (innerTree Str.codeUnitCompare (buildTree (sortedPages Str.codeUnitCompare [pd; pc; pb]))).
Proof.
  apply (example_tree Str.codeUnitCompare "a/b.md" "B" "a/c.md" "C" "d.md" "D" 1 1 0).
  - exact StrFacts.codeUnitCompare_consistent.
  - reflexivity.
  - reflexivity.
  - apply Permutation_rev.
Defined.

(** C3 as stated fails: a page at ["x.html"] and a page below a folder
    of the same name, ["x.html/y.html"], make the node ["x.html"] a node
    with a page and with a child; it is neither a folder nor a file.
    (The list is in the order the sort by code units gives it.) *)
Lemma page_node_with_children :
  let px := mkPageInfo "x.html" "x.md" "X" 0 in
  let py := mkPageInfo "x.html/y.html" "x.html/y.md" "Y" 1 in
  sortedPages Str.codeUnitCompare [px; py] = [px; py] /\
  buildTree [px; py] =
    mkNode "Project" ""
      [mkNode "x.html" "x.html"
         [mkNode "y.html" "x.html/y.html" [] (Some py)] (Some px)] None /\
  ~ Tree_spec.EveryNode
      (fun n => Tree_spec.exactlyOneKind n /\ Tree_spec.namesDistinct n)
      (buildTree [px; py]).
Proof.
  split; [reflexivity|]. split; [reflexivity|].
  intros H. inversion H as [? _ Hcs]; subst. cbn in Hcs.
  inversion Hcs as [|? ? Hx _]; subst.
  inversion Hx as [? [Hk _] _]; subst.
  destruct Hk as [[Hd _]|[[_ Hf] _]].
  - unfold Tree_spec.isDirectoryNode in Hd. discriminate Hd.
  - discriminate Hf.
Qed.

(** C3, amended: when no page lies at a proper prefix of the segments
    of another page, every node of the tree is exactly one of folder
    and file, and the names of the children of every node are distinct.
    (The names are distinct for every list of pages:
    [TreeFacts.buildTree_namesDistinct].) *)
Theorem tree_kinds_and_names (pages : list PageInfo) :
  Tree_spec.PrefixFree pages ->
  Tree_spec.EveryNode
    (fun n => Tree_spec.exactlyOneKind n /\ Tree_spec.namesDistinct n)
    (buildTree pages).
Proof.
  intros Hfree. unfold buildTree.
  eapply TreeFacts.Built_kinds.
  apply (TreeFacts.fold_insertPage_Built pages (fun _ => False) root).
  - constructor; [apply NoDup_nil_2|constructor].
  - reflexivity.
  - intros q pre Hq Hpre Hne. split; [tauto|].
    intros (p & Hp & Hx). subst pre. now apply (Hfree p q).
Qed.

(** [tree_kinds_and_names] at a concrete input. *)
Lemma tree_kinds_and_names_witness :
  Tree_spec.EveryNode
    (fun n => Tree_spec.exactlyOneKind n /\ Tree_spec.namesDistinct n)
    (buildTree [mkPageInfo "a/b.html" "a/b.md" "B" 1;
                mkPageInfo "a/c.html" "a/c.md" "C" 1;
                mkPageInfo "d.html" "d.md" "D" 0]).
Proof.
  apply tree_kinds_and_names.
  intros p q Hp Hq Hne [c [Hc Heq]]. simpl in Hp, Hq.
  destruct Hp as [<-|[<-|[<-|[]]]]; destruct Hq as [<-|[<-|[<-|[]]]];
    vm_compute in Heq; try discriminate Heq;
    injection Heq as Heq; now subst c.
Defined.

(** C4 (the title).  The title of the record of a converted page is the
    text of the group of the first match of [^#\s+(.+)$] in the source
    text, wherever in the text the match is; without a match it is the
    file name without [.md].  For the text ["# Hello World"], a line
    feed, ["Body text"] it is ["Hello World"]. *)
Theorem title_of_page
    (marked : string -> string) (cwd dir stem mdContent : string) (disk : Disk) :
  let mdPath := Path.join dir (stem ++ ".md") in
  stem <> "" -> Str_spec.occurs "/" stem = false ->
  files disk !! mdPath = Some mdContent ->
  exists pg disk',
    convertMarkdownToHtml marked cwd mdPath disk = (Some pg, disk') /\
    ((exists cap, Title_spec.FirstMatch mdContent cap /\ title pg = cap) \/
     (Title_spec.NoMatch mdContent /\ title pg = stem)) /\
    (mdContent = ("# Hello World" ++ String "010" "Body text")%string ->
     title pg = "Hello World").
Proof.
  intros mdPath Hne Hno Hread.
  pose proof (BuildFacts.convert_ok marked cwd mdPath mdContent disk Hread) as H.
  cbv zeta in H. eexists _, _. split; [exact H|]. simpl. split.
  - unfold pageTitle. destruct (Regex.h1Match mdContent) as [cap|] eqn:E.
    + left. exists cap. split; [now apply RegexFacts.h1Match_Some|reflexivity].
    + right. split; [now apply RegexFacts.h1Match_None|].
      now apply PathFacts.basename_join.
  - intros ->. reflexivity.
Qed.

(** [title_of_page] at a concrete input. *)
Lemma title_of_page_witness :
  let mdContent := ("# Hello World" ++ String "010" "Body text")%string in
  exists pg disk',
    convertMarkdownToHtml (fun s => s) "/w" (Path.join "/w/n" ("b" ++ ".md"))
      (mkDisk {[ "/w/n/b.md" := mdContent ]} ∅) = (Some pg, disk') /\
    ((exists cap, Title_spec.FirstMatch mdContent cap /\ title pg = cap) \/
     (Title_spec.NoMatch mdContent /\ title pg = "b")) /\
    (mdContent = ("# Hello World" ++ String "010" "Body text")%string ->
     title pg = "Hello World").
Proof.
  apply (title_of_page (fun s => s) "/w" "/w/n" "b").
  - discriminate.
  - reflexivity.
  - apply lookup_singleton_eq.
Defined.

(** C5 (discovery).  Every path the walk returns is the path of a file
    of the tree whose name ends with [.md], and none of its components
    below the root is ["dist"], ["node_modules"] or begins with ["."];
    the path of a file below an excluded name is never returned. *)
Theorem discovery_only_markdown_outside_excluded
    (dir : string) (d : Entry) (res : list string) :
  getAllMarkdownFiles dir d [] = Some res ->
  Forall (Walk_spec.Discovered dir d) res /\
  (Walk_spec.NamesOk d ->
   forall cs, Walk_spec.FileAt d cs -> Exists Walk_spec.excluded cs ->
              ~ In (Walk_spec.below dir cs) res).
Proof.
  intros Hrun.
  destruct (WalkFacts.walk_sound d dir [] res Hrun) as (new & -> & Hnew).
  simpl. split; [exact Hnew|].
  intros Hok cs Hat Hex Hin.
  rewrite List.Forall_forall in Hnew.
  destruct (Hnew _ Hin) as (cs' & f & Heq & Hat' & _ & _ & Hnone).
  apply WalkFacts.below_inj in Heq;
    [|now apply (WalkFacts.FileAt_names d)|now apply (WalkFacts.FileAt_names d)].
  subst cs'. apply Exists_exists in Hex as (c & Hc & Hexc).
  rewrite List.Forall_forall in Hnone. apply list_elem_of_In in Hc.
  exact (Hnone c Hc Hexc).
Qed.

(** [discovery_only_markdown_outside_excluded] at a concrete input. *)
Lemma discovery_only_markdown_outside_excluded_witness :
  let d :=
    Dir "" true
      [File "a.md";
       Dir "dist" true [File "x.md"];
       Dir "n" true [File "b.md"; File ".c.md"; File "t.txt"; Other "l.md"];
       Dir ".git" true [File "z.md"]] in
  let res := ["/w/a.md"; "/w/n/b.md"] in
  Forall (Walk_spec.Discovered "/w" d) res /\
  (Walk_spec.NamesOk d ->
   forall cs, Walk_spec.FileAt d cs -> Exists Walk_spec.excluded cs ->
              ~ In (Walk_spec.below "/w" cs) res).
Proof.
  apply discovery_only_markdown_outside_excluded. reflexivity.
Defined.

(** C6 (no markdown file).  When the walk finds no markdown file the
    build resolves, and all it has done is to make sure that the output
    directory exists: no file is written, neither a page nor
    [toc.html]. *)
Theorem build_without_markdown_files
    (localeCompare : string -> string -> Z) (marked : string -> string)
    (cwd : string) (tree : Entry) (disk : Disk) :
  getAllMarkdownFiles (SRC_DIR cwd) tree [] = Some [] ->
  build localeCompare marked cwd tree disk = mkdir (DIST_DIR cwd) disk /\
  fst (build localeCompare marked cwd tree disk) = Some tt /\
  files (snd (build localeCompare marked cwd tree disk)) = files disk.
Proof.
  intros Hwalk.
  assert (H : build localeCompare marked cwd tree disk = mkdir (DIST_DIR cwd) disk).
  { unfold build, await, mkdir. simpl. rewrite Hwalk. reflexivity. }
  rewrite H. repeat split.
Qed.

(** [build_without_markdown_files] at a concrete input. *)
Lemma build_without_markdown_files_witness :
  let tree := Dir "" true [File "notes.txt"; Dir "dist" true [File "old.md"]; Dir "img" true []] in
  let disk := mkDisk {[ "/w/notes.txt" := "plain" ]} {[ "/w" ]} in
  build Str.codeUnitCompare (fun s => s) "/w" tree disk = mkdir (DIST_DIR "/w") disk /\
  fst (build Str.codeUnitCompare (fun s => s) "/w" tree disk) = Some tt /\
  files (snd (build Str.codeUnitCompare (fun s => s) "/w" tree disk)) = files disk.
Proof.
  apply build_without_markdown_files. reflexivity.
Defined.



(** C8 (the empty path).  A page whose path has no non-empty segment
    adds no node: the Tree Builder builds the same tree with the page
    and without it.  This holds of the list as it is given and, for a
    consistent comparator, of the sorted list [generateTocHtml] hands
    to the builder. *)
Theorem empty_path_adds_no_node
    (localeCompare : string -> string -> Z) (l1 l2 : list PageInfo) (pg : PageInfo) :
  pathParts (path pg) = [] ->
  buildTree (l1 ++ pg :: l2) = buildTree (l1 ++ l2) /\
  (Array.Consistent localeCompare ->
   buildTree (sortedPages localeCompare (l1 ++ pg :: l2)) =
     buildTree (sortedPages localeCompare (l1 ++ l2))).
Proof.
  intros Hpg. unfold buildTree, sortedPages.
  assert (Hf : List.filter Tree_spec.hasParts (l1 ++ pg :: l2) =
               List.filter Tree_spec.hasParts (l1 ++ l2)).
  { rewrite !List.filter_app. simpl. unfold Tree_spec.hasParts at 2.
    now rewrite Hpg. }
  split.
  - rewrite TocFacts.fold_insertPage_hasParts, Hf.
    symmetry. apply TocFacts.fold_insertPage_hasParts.
  - intros Hc. rewrite TocFacts.fold_insertPage_hasParts.
    rewrite (ArrayFacts.sort_filter _ (TocFacts.comparePages_consistent _ Hc)), Hf.
    rewrite <- (ArrayFacts.sort_filter _ (TocFacts.comparePages_consistent _ Hc)).
    symmetry. apply TocFacts.fold_insertPage_hasParts.
Qed.

(** [empty_path_adds_no_node] at a concrete input. *)
Lemma empty_path_adds_no_node_witness :
  let pa := mkPageInfo "a/b.html" "a/b.md" "B" 1 in
  let pe := mkPageInfo "" "" "none" 0 in
  let pd := mkPageInfo "d.html" "d.md" "D" 0 in
  buildTree ([pd] ++ pe :: [pa]) = buildTree ([pd] ++ [pa]) /\
  buildTree (sortedPages Str.codeUnitCompare ([pd] ++ pe :: [pa])) =
    buildTree (sortedPages Str.codeUnitCompare ([pd] ++ [pa])).
Proof.
  pose proof (empty_path_adds_no_node Str.codeUnitCompare
                [mkPageInfo "d.html" "d.md" "D" 0]
                [mkPageInfo "a/b.html" "a/b.md" "B" 1]
                (mkPageInfo "" "" "none" 0) eq_refl) as [H1 H2].
  split; [exact H1|exact (H2 StrFacts.codeUnitCompare_consistent)].
Defined.

(** C9 (conversion twice).  A second conversion of a source, on the
    disk the first one has left, reads the same text, returns the same
    record and leaves the disk as it is: the page is written again with
    the same content. *)
Theorem conversion_twice
    (marked : string -> string) (cwd stem mdContent : string) (disk : Disk) :
  let mdPath := Path.join (SRC_DIR cwd) (stem ++ ".md") in
  let htmlPath := Path.join (DIST_DIR cwd) (stem ++ ".html") in
  files disk !! mdPath = Some mdContent ->
  exists pg disk1,
    convertMarkdownToHtml marked cwd mdPath disk = (Some pg, disk1) /\
    convertMarkdownToHtml marked cwd mdPath disk1 = (Some pg, disk1) /\
    files disk1 !! htmlPath = Some (Template.htmlTemplate (title pg) (marked mdContent)) /\
    files disk1 !! mdPath = Some mdContent.
Proof.
  intros mdPath htmlPath Hread.
  pose proof (BuildFacts.convert_ok marked cwd mdPath mdContent disk Hread) as H1.
  cbv zeta in H1.
  assert (Hhtml : Path.join (DIST_DIR cwd) (Regex.replaceMdExt (Path.relative cwd mdPath))
                  = htmlPath).
  { unfold mdPath, SRC_DIR. now rewrite AppendFacts.relative_join, AppendFacts.replaceMdExt_md. }
  rewrite Hhtml in H1.
  assert (Hne : htmlPath <> mdPath) by apply BuildFacts.html_path_differs.
  eexists _, _. split; [exact H1|].
  assert (Hread1 : <[htmlPath := Template.htmlTemplate (pageTitle mdPath mdContent)
                                   (marked mdContent)]> (files disk) !! mdPath
                   = Some mdContent)
    by (now rewrite lookup_insert_ne).
  split; [|split].
  - match goal with
    | |- convertMarkdownToHtml _ _ _ ?d1 = _ =>
        pose proof (BuildFacts.convert_ok marked cwd mdPath mdContent d1 Hread1) as H2
    end.
    cbv zeta in H2. rewrite Hhtml in H2. rewrite H2. simpl. f_equal. f_equal.
    + apply insert_insert_eq.
    + rewrite (assoc_L (∪)). f_equal. apply (idemp_L (∪)).
  - simpl. apply lookup_insert_eq.
  - exact Hread1.
Qed.

(** [conversion_twice] at a concrete input. *)
Lemma conversion_twice_witness :
  let disk := mkDisk {[ "/w/n/b.md" := "# B" ]} ∅ in
  exists pg disk1,
    convertMarkdownToHtml (fun s => s) "/w" (Path.join (SRC_DIR "/w") ("n/b" ++ ".md")) disk
      = (Some pg, disk1) /\
    convertMarkdownToHtml (fun s => s) "/w" (Path.join (SRC_DIR "/w") ("n/b" ++ ".md")) disk1
      = (Some pg, disk1) /\
    files disk1 !! Path.join (DIST_DIR "/w") ("n/b" ++ ".html")
      = Some (Template.htmlTemplate (title pg) "# B") /\
    files disk1 !! Path.join (SRC_DIR "/w") ("n/b" ++ ".md") = Some "# B".
Proof.
  apply (conversion_twice (fun s => s) "/w" "n/b" "# B").
  apply lookup_singleton_eq.
Defined.

(** Under a comparator that ties equal strings only, pages of distinct
    paths do not tie. *)
Lemma distinct_paths_tie_free
    (localeCompare : string -> string -> Z) (pages : list PageInfo) :
  (forall a b, localeCompare a b = 0 -> a = b) ->
  NoDup (map path pages) ->
  Array.TieFree (comparePages localeCompare) pages.
Proof.
  intros Hsep. induction pages as [|p pages IH]; simpl; intros Hnd.
  - constructor.
  - apply NoDup_cons in Hnd as [Hp Hnd]. constructor; [|now apply IH].
    apply List.Forall_forall. intros q Hq Htie.
    apply Hsep in Htie. apply Hp. rewrite Htie.
    apply list_elem_of_In, in_map, Hq.
Qed.

(** C10 as stated fails.  [localeCompare] ties strings that differ: it
    returns 0 for canonically equivalent strings, and the collation
    ignores code units such as the soft hyphen (U+00AD).  The sort
    keeps tied pages in the order of the input, and the root renders
    its children in the order of insertion.  The two pages below have
    different paths that tie; they swap places in the output when they
    swap places in the input. *)
Lemma toc_depends_on_input_order :
  let p := mkPageInfo ("co" ++ String "173" "op.html") "co-op.md" "Co-op" 0 in
  let q := mkPageInfo "coop.html" "coop.md" "Coop" 0 in
  Array.Consistent Str_spec.compareKeys /\
  NoDup (map path [p; q]) /\
  Permutation [p; q] [q; p] /\
  Str_spec.compareKeys (path p) (path q) = 0 /\
  innerTree Str_spec.compareKeys (buildTree (sortedPages Str_spec.compareKeys [p; q])) =
    (Template.fileItem (path p) "Co-op" ++ Template.fileItem (path q) "Coop")%string /\
  innerTree Str_spec.compareKeys (buildTree (sortedPages Str_spec.compareKeys [q; p])) =
    (Template.fileItem (path q) "Coop" ++ Template.fileItem (path p) "Co-op")%string /\
  generateTocHtml Str_spec.compareKeys [p; q] <> generateTocHtml Str_spec.compareKeys [q; p].
Proof.
  intros p q.
  split; [exact StrFacts.compareKeys_consistent|].
  split; [|split; [apply perm_swap|]].
  - apply NoDup_cons. split.
    + intros H. apply list_elem_of_In in H. simpl in H.
      destruct H as [H|[]]. discriminate H.
    + apply NoDup_cons. split; [intros H; inversion H|constructor].
  - repeat split; try reflexivity.
    intros H. apply String.eqb_eq in H. vm_compute in H. discriminate H.
Qed.

(** C10, amended: when no two pages have paths that tie under
    [localeCompare], the table of contents is the same for every order
    of the pages. *)
Theorem toc_permutation_invariant
    (localeCompare : string -> string -> Z) (pages pages' : list PageInfo) :
  Array.Consistent localeCompare ->
  Array.TieFree (comparePages localeCompare) pages ->
  Permutation pages pages' ->
  generateTocHtml localeCompare pages = generateTocHtml localeCompare pages'.
Proof.
  intros Hc Ht Hp. unfold generateTocHtml, sortedPages.
  now rewrite (ArrayFacts.sort_perm_eq _ (TocFacts.comparePages_consistent _ Hc) _ _ Ht Hp).
Qed.

(** [toc_permutation_invariant] at a concrete input. *)
Lemma toc_permutation_invariant_witness :
  let pb := mkPageInfo "a/b.html" "a/b.md" "B" 1 in
  let pd := mkPageInfo "d.html" "d.md" "D" 0 in
  generateTocHtml Str.codeUnitCompare [pd; pb] =
  generateTocHtml Str.codeUnitCompare [pb; pd].
Proof.
  apply (toc_permutation_invariant Str.codeUnitCompare).
  - exact StrFacts.codeUnitCompare_consistent.
  - repeat constructor; vm_compute; discriminate.
  - apply perm_swap.
Defined.

(** * Further properties *)

(** ** The walk: what it returns and when it returns *)

Module WalkOrderFacts.

Import Walk_spec Walk_order.

#[local] Arguments String.append : simpl nomatch.

(** What one entry contributes to the listing of its directory. *)
Lemma listing_dir n r es :
  listing (Dir n r es) =
  flat_map
    (fun e =>
       if skipped (entryName e) then []
       else
         match e with
         | File f => if Str.endsWith ".md" f then [[f]] else []
         | Dir m _ _ => map (cons m) (listing e)
         | Other _ => []
         end) es.
Proof. reflexivity. Qed.

Lemma forEntries_listing visit dir es :
  Forall (fun e => forall dir' files res,
            visit dir' e files = Some res ->
            res = (files ++ map (below dir') (listing e))%list) es ->
  forall files res,
    forEntries visit dir es files = Some res ->
    res = (files ++ map (below dir) (listing (Dir "" true es)))%list.
Proof.
  rewrite listing_dir.
  induction 1 as [|e es He Hes IH]; intros files res Hrun; simpl in Hrun.
  - inversion Hrun; subst. simpl. now rewrite app_nil_r.
  - simpl. destruct (skipped (entryName e)) eqn:Hskip; [now apply IH|].
    rewrite map_app, app_assoc.
    destruct e as [f|dn dr des|o].
    + destruct (Str.endsWith ".md" f); [|simpl; rewrite app_nil_r; now apply IH].
      now apply IH.
    + destruct (visit (Path.join dir (entryName (Dir dn dr des))) (Dir dn dr des) files)
        as [files'|] eqn:Hvisit; [|discriminate].
      rewrite (He _ _ _ Hvisit) in Hrun.
      rewrite map_map. simpl. now apply IH.
    + simpl. rewrite app_nil_r. now apply IH.
Qed.

(** The walk returns what it was given followed by the listing of the
    directory, each component list joined behind [dir]. *)
Lemma walk_listing d :
  forall dir files res,
    getAllMarkdownFiles dir d files = Some res ->
    res = (files ++ map (below dir) (listing d))%list.
Proof.
  induction d as [n|n|n r es IH] using WalkFacts.Entry_induction;
    intros dir files res Hrun; simpl in Hrun; try discriminate.
  destruct r; [|discriminate].
  now apply (forEntries_listing getAllMarkdownFiles dir es IH).
Qed.

(** The listing holds every markdown file that is reached through names
    the walk does not pass over. *)
Lemma listing_complete d cs :
  FileAt d cs ->
  forall f, last cs = Some f -> Str.endsWith ".md" f = true ->
            Forall (fun c => skipped c = false) cs ->
            In cs (listing d).
Proof.
  induction 1 as [n r es f Hin|n r es sub c cs Hin Hname Hsub IH];
    intros f' Hlast Hmd Hok; rewrite listing_dir; apply in_flat_map.
  - exists (File f). split; [exact Hin|]. simpl.
    inversion Hok as [|? ? Hf _]; subst. rewrite Hf.
    simpl in Hlast. injection Hlast as <-. rewrite Hmd. now left.
  - exists sub. split; [exact Hin|].
    inversion Hok as [|? ? Hc Hcs]; subst. rewrite Hc.
    assert (Hlast' : last cs = Some f').
    { inversion Hsub; subst; exact Hlast. }
    inversion Hsub; subst; simpl; apply in_map; eapply IH; eauto.
Qed.

(** What the listing holds leads to a file of the tree. *)
Lemma listing_FileAt d :
  forall cs, In cs (listing d) -> FileAt d cs.
Proof.
  induction d as [n|n|n r es IH] using WalkFacts.Entry_induction;
    intros cs Hin; try contradiction.
  rewrite listing_dir in Hin. apply in_flat_map in Hin as (e & He & Hcs).
  destruct (skipped (entryName e)); [contradiction|].
  destruct e as [f|dn dr des|o]; try contradiction.
  - destruct (Str.endsWith ".md" f); [|contradiction].
    destruct Hcs as [<-|[]]. now apply FileAt_here.
  - apply in_map_iff in Hcs as (cs' & <- & Hcs').
    rewrite List.Forall_forall in IH.
    eapply FileAt_down; [exact He|reflexivity|now apply (IH _ He)].
Qed.

(** Every list of the contribution of an entry begins with its name. *)
Lemma listing_head n r es e cs :
  In e es ->
  In cs (if skipped (entryName e) then []
         else match e with
              | File f => if Str.endsWith ".md" f then [[f]] else []
              | Dir m _ _ => map (cons m) (listing e)
              | Other _ => []
              end) ->
  FileAt (Dir n r es) cs /\ hd_error cs = Some (entryName e).
Proof.
  intros He Hcs. split.
  - apply listing_FileAt. rewrite listing_dir. apply in_flat_map. eauto.
  - destruct (skipped (entryName e)); [contradiction|].
    destruct e as [f|dn dr des|o]; try contradiction.
    + destruct (Str.endsWith ".md" f); [|contradiction]. now destruct Hcs as [<-|[]].
    + apply in_map_iff in Hcs as (cs' & <- & _). reflexivity.
Qed.

(** With different names in every directory no file is listed twice. *)
Lemma listing_NoDup d : UniqueNames d -> NoDup (listing d).
Proof.
  induction d as [n|n|n r es IH] using WalkFacts.Entry_induction;
    intros Hu; try apply NoDup_nil_2.
  inversion Hu as [| |? ? ? Hnames Hsub]; subst. rewrite listing_dir. clear Hu.
  induction es as [|e es IHes]; simpl; [apply NoDup_nil_2|].
  inversion IH as [|? ? IHe IHrest]; subst.
  inversion Hsub as [|? ? Hue Hurest]; subst.
  simpl in Hnames. apply NoDup_cons in Hnames as [Hfresh Hnames].
  apply NoDup_app. repeat split.
  - destruct (skipped (entryName e)); [apply NoDup_nil_2|].
    destruct e as [f|dn dr des|o]; try apply NoDup_nil_2.
    + destruct (Str.endsWith ".md" f); [apply NoDup_singleton|apply NoDup_nil_2].
    + apply NoDup_fmap_2; [intros x y Hxy; now injection Hxy|now apply IHe].
  - intros cs Hcs Hcs'. apply list_elem_of_In in Hcs, Hcs'.
    destruct (listing_head n r (e :: es) e cs (or_introl eq_refl) Hcs) as [_ Hhd].
    apply in_flat_map in Hcs' as (e' & He' & Hcs').
    destruct (listing_head n r es e' cs He' Hcs') as [_ Hhd'].
    rewrite Hhd in Hhd'. injection Hhd' as Heq.
    apply Hfresh. rewrite Heq. apply list_elem_of_In, in_map, He'.
  - now apply IHes.
Qed.

Lemma walkable_forEntries visit dir es :
  Forall (fun e => forall dir' files n r sub, e = Dir n r sub ->
            (is_Some (visit dir' e files) <-> walkable e = true)) es ->
  forall files,
    is_Some (forEntries visit dir es files) <->
    forallb (fun e => skipped (entryName e) ||
                      match e with Dir _ _ _ => walkable e | _ => true end) es = true.
Proof.
  induction 1 as [|e es He Hes IH]; intros files; simpl.
  - split; [reflexivity|eauto].
  - destruct (skipped (entryName e)) eqn:Hskip; simpl; [apply IH|].
    destruct e as [f|dn dr des|o].
    + destruct (Str.endsWith ".md" f); apply IH.
    + specialize (He (Path.join dir (entryName (Dir dn dr des))) files dn dr des eq_refl).
      destruct (visit (Path.join dir (entryName (Dir dn dr des))) (Dir dn dr des) files)
        as [files'|].
      * destruct He as [He _]. rewrite (He (mk_is_Some _ _ eq_refl)). simpl. apply IH.
      * destruct (walkable (Dir dn dr des)) eqn:Hw.
        -- destruct He as [_ He]. destruct (He eq_refl) as [x Hx]. discriminate.
        -- simpl. split; [intros [x Hx]; discriminate|discriminate].
    + apply IH.
Qed.

(** The walk returns exactly on the trees all of whose entered
    directories can be read. *)
Lemma walk_returns_iff d :
  forall dir files, is_Some (getAllMarkdownFiles dir d files) <-> walkable d = true.
Proof.
  induction d as [n|n|n r es IH] using WalkFacts.Entry_induction;
    intros dir files; simpl;
    try (split; [intros [x Hx]; discriminate|discriminate]).
  destruct r; [|split; [intros [x Hx]; discriminate|discriminate]].
  apply walkable_forEntries.
  eapply List.Forall_impl; [|exact IH]. intros e He dir' files' n0 r0 sub _. apply He.
Qed.

End WalkOrderFacts.

(** X1 (the walk is complete).  Every markdown file of the tree that is
    reached through names the walk does not exclude is among the paths
    the walk returns. *)
Theorem walk_finds_every_markdown_file
    (dir : string) (d : Entry) (res : list string) (cs : list string) (f : string) :
  getAllMarkdownFiles dir d [] = Some res ->
  Walk_spec.FileAt d cs -> last cs = Some f -> Str.endsWith ".md" f = true ->
  Forall (fun c => ~ Walk_spec.excluded c) cs ->
  In (Walk_spec.below dir cs) res.
Proof.
  intros Hrun Hat Hlast Hmd Hok.
  rewrite (WalkOrderFacts.walk_listing d dir [] res Hrun). simpl.
  apply in_map. apply (WalkOrderFacts.listing_complete d cs Hat f Hlast Hmd).
  eapply List.Forall_impl; [|exact Hok]. intros c Hc.
  destruct (skipped c) eqn:E; [|reflexivity].
  exfalso. apply Hc. now apply WalkFacts.excluded_skipped.
Qed.

(** [walk_finds_every_markdown_file] at a concrete input. *)
Lemma walk_finds_every_markdown_file_witness :
  In (Walk_spec.below "/w" ["n"; "b.md"]) ["/w/a.md"; "/w/n/b.md"].
Proof.
  apply (walk_finds_every_markdown_file "/w"
           (Dir "" true
              [File "a.md"; Dir "dist" true [File "x.md"];
               Dir "n" true [File "b.md"; File "t.txt"]])
           ["/w/a.md"; "/w/n/b.md"] ["n"; "b.md"] "b.md").
  - reflexivity.
  - eapply Walk_spec.FileAt_down;
      [right; right; left; reflexivity|reflexivity|].
    apply Walk_spec.FileAt_here. now left.
  - reflexivity.
  - reflexivity.
  - repeat constructor; intros [H|[H|H]]; discriminate H.
Defined.

(** X2 (the accumulator).  The walk keeps the paths it is given in
    front of its result, in their order, and what it adds does not
    depend on them: it is what the walk returns when given none. *)
Theorem walk_keeps_accumulator
    (dir : string) (d : Entry) (files res : list string) :
  getAllMarkdownFiles dir d files = Some res ->
  exists new,
    getAllMarkdownFiles dir d [] = Some new /\ res = (files ++ new)%list.
Proof.
  intros Hrun.
  assert (Hsome : is_Some (getAllMarkdownFiles dir d [])).
  { apply WalkOrderFacts.walk_returns_iff.
    apply (WalkOrderFacts.walk_returns_iff d dir files). eauto. }
  destruct Hsome as [new Hnew]. exists new. split; [exact Hnew|].
  rewrite (WalkOrderFacts.walk_listing d dir files res Hrun).
  now rewrite (WalkOrderFacts.walk_listing d dir [] new Hnew).
Qed.

(** [walk_keeps_accumulator] at a concrete input. *)
Lemma walk_keeps_accumulator_witness :
  exists new,
    getAllMarkdownFiles "/w" (Dir "" true [File "a.md"; Dir "n" true [File "b.md"]]) []
      = Some new /\
    ["/v/z.md"; "/w/a.md"; "/w/n/b.md"] = (["/v/z.md"] ++ new)%list.
Proof.
  apply (walk_keeps_accumulator "/w"
           (Dir "" true [File "a.md"; Dir "n" true [File "b.md"]]) ["/v/z.md"]).
  reflexivity.
Defined.

(** X3 (when the walk rejects).  The walk returns exactly when it can
    read the root and every directory it enters; a directory that
    cannot be read does no harm below a name the walk excludes, and
    makes the whole walk reject anywhere else. *)
Theorem walk_returns_iff_readable
    (dir : string) (d : Entry) (files : list string) :
  is_Some (getAllMarkdownFiles dir d files) <-> Walk_order.walkable d = true.
Proof. apply WalkOrderFacts.walk_returns_iff. Qed.

(** X4 (no path twice).  When the entries of every directory have
    different names, none of them with a separator, the walk returns no
    path twice. *)
Theorem walk_returns_no_path_twice
    (dir : string) (d : Entry) (res : list string) :
  Walk_order.UniqueNames d -> Walk_spec.NamesOk d ->
  getAllMarkdownFiles dir d [] = Some res ->
  NoDup res.
Proof.
  intros Hu Hok Hrun.
  rewrite (WalkOrderFacts.walk_listing d dir [] res Hrun). simpl.
  apply NoDup_fmap_2_strong; [|now apply WalkOrderFacts.listing_NoDup].
  intros cs cs' Hcs Hcs' Heq. apply list_elem_of_In in Hcs, Hcs'.
  apply (WalkFacts.below_inj dir); [| |exact Heq];
    apply (WalkFacts.FileAt_names d); auto using WalkOrderFacts.listing_FileAt.
Qed.

(** [walk_returns_no_path_twice] at a concrete input. *)
Lemma walk_returns_no_path_twice_witness :
  NoDup ["/w/a.md"; "/w/n/a.md"].
Proof.
  apply (walk_returns_no_path_twice "/w"
           (Dir "w" true [File "a.md"; Dir "n" true [File "a.md"]])).
  - apply Walk_order.UniqueNames_dir.
    + simpl. apply NoDup_cons. split; [|apply NoDup_singleton].
      intros H. apply list_elem_of_In in H. simpl in H. intuition discriminate.
    + constructor; [constructor|]. constructor; [|constructor].
      apply Walk_order.UniqueNames_dir; [apply NoDup_singleton|repeat constructor].
  - repeat constructor; discriminate.
  - reflexivity.
Defined.

(** ** The tree: the node of a page *)

Module TreePathFacts.

Import Tree_spec Tree_path.

Lemma find_app {A : Type} (f : A -> bool) (l1 l2 : list A) :
  List.find f (l1 ++ l2) =
  match List.find f l1 with
  | Some x => Some x
  | None => List.find f l2
  end.
Proof.
  induction l1 as [|x l1 IH]; simpl; [reflexivity|].
  destruct (f x); [reflexivity|exact IH].
Qed.

Lemma find_none {A : Type} (f : A -> bool) (l : list A) :
  Forall (fun x => f x = false) l -> List.find f l = None.
Proof.
  induction 1 as [|x l Hx Hl IH]; simpl; [reflexivity|]. now rewrite Hx.
Qed.

(** The children after one step of the insertion, looked up by name:
    the name of the step leads to the child the step went through, any
    other name to the child it led to before. *)
Lemma find_after_step (f : TreeNode -> TreeNode) (part x : string)
    (l : list TreeNode) (fresh : TreeNode) :
  (forall c, name (f c) = name c) -> name fresh = part ->
  List.find (fun c => String.eqb (name c) x)
    match updateFirst (fun c => String.eqb (name c) part) f l with
    | Some cs => cs
    | None => (l ++ [f fresh])%list
    end =
  if String.eqb x part
  then Some (f match List.find (fun c => String.eqb (name c) part) l with
                | Some c0 => c0
                | None => fresh
                end)
  else List.find (fun c => String.eqb (name c) x) l.
Proof.
  intros Hf Hfresh.
  destruct (updateFirst _ f l) as [cs|] eqn:E.
  - apply TreeFacts.updateFirst_Some in E as (l1 & c0 & l2 & -> & Hc0 & Hl1 & ->).
    rewrite !find_app. simpl. rewrite Hf.
    destruct (String.eqb x part) eqn:Hx.
    + apply String.eqb_eq in Hx. subst x.
      rewrite (find_none _ l1 Hl1), Hc0. reflexivity.
    + assert (Hne : String.eqb (name c0) x = false).
      { apply String.eqb_eq in Hc0. rewrite Hc0, String.eqb_sym. exact Hx. }
      rewrite Hne. reflexivity.
  - apply TreeFacts.updateFirst_None in E.
    rewrite find_app. simpl. rewrite Hf, Hfresh.
    destruct (String.eqb x part) eqn:Hx.
    + apply String.eqb_eq in Hx. subst x.
      rewrite (find_none _ l E), String.eqb_refl. reflexivity.
    + rewrite String.eqb_sym, Hx.
      destruct (List.find _ l); reflexivity.
Qed.

Lemma insertParts_last pg sofar part node :
  insertParts pg sofar [part] node =
  stepWith (fun c => c) part
    (mkNode part (Str.join "/" (sofar ++ [part])) [] (Some pg)) node.
Proof. reflexivity. Qed.

Lemma insertParts_more pg sofar part r rest node :
  insertParts pg sofar (part :: r :: rest) node =
  stepWith (insertParts pg (sofar ++ [part]) (r :: rest)) part
    (mkNode part (Str.join "/" (sofar ++ [part])) [] None) node.
Proof. reflexivity. Qed.

(** The child a step goes through: the first of the name, or the fresh
    one. *)
Lemma nodeAt_stepWith (f : TreeNode -> TreeNode) (part x : string)
    (fresh node : TreeNode) (ps : list string) :
  (forall c, name (f c) = name c) -> name fresh = part ->
  nodeAt (stepWith f part fresh node) (x :: ps) =
  if String.eqb x part
  then nodeAt (f match List.find (fun c => String.eqb (name c) part) (children node) with
                 | Some c0 => c0
                 | None => fresh
                 end) ps
  else nodeAt node (x :: ps).
Proof.
  intros Hf Hfresh.
  pose proof (find_after_step f part x (children node) fresh Hf Hfresh) as H.
  unfold stepWith. simpl.
  destruct (updateFirst _ f (children node)); simpl; rewrite H;
    destruct (String.eqb x part); reflexivity.
Qed.

Lemma stepWith_name f part fresh node : name (stepWith f part fresh node) = name node.
Proof. unfold stepWith. destruct (updateFirst _ _ _); reflexivity. Qed.

Lemma stepWith_page f part fresh node : page (stepWith f part fresh node) = page node.
Proof. unfold stepWith. destruct (updateFirst _ _ _); reflexivity. Qed.

Lemma updateFirst_fixed found (f : TreeNode -> TreeNode) l c0 :
  List.find found l = Some c0 -> f c0 = c0 -> updateFirst found f l = Some l.
Proof.
  induction l as [|x l IH]; simpl; [discriminate|].
  destruct (found x).
  - intros [= ->] Hf. now rewrite Hf.
  - intros Hfind Hf. now rewrite (IH Hfind Hf).
Qed.

Lemma stepWith_fixed f part fresh node c0 :
  List.find (fun c => String.eqb (name c) part) (children node) = Some c0 ->
  f c0 = c0 -> stepWith f part fresh node = node.
Proof.
  intros Hfind Hf. unfold stepWith.
  rewrite (updateFirst_fixed _ f _ c0 Hfind Hf). now destruct node.
Qed.

(** Where the segments lead to a node already, the insertion changes
    nothing. *)
Lemma insertParts_present pg parts :
  forall sofar node,
    is_Some (nodeAt node parts) -> insertParts pg sofar parts node = node.
Proof.
  induction parts as [|part rest IH]; intros sofar node Hat; [reflexivity|].
  simpl in Hat.
  destruct (List.find _ (children node)) as [c0|] eqn:Hfind;
    [|destruct Hat; discriminate].
  destruct rest as [|r rest].
  - rewrite insertParts_last. now apply (stepWith_fixed _ _ _ _ c0).
  - rewrite insertParts_more. apply (stepWith_fixed _ _ _ _ c0 Hfind).
    now apply IH.
Qed.

(** After the insertion the segments lead to a node. *)
Lemma insertParts_reaches pg parts :
  forall sofar node, is_Some (nodeAt (insertParts pg sofar parts node) parts).
Proof.
  induction parts as [|part rest IH]; intros sofar node; [simpl; eauto|].
  destruct rest as [|r rest].
  - rewrite insertParts_last, nodeAt_stepWith by reflexivity.
    rewrite String.eqb_refl. simpl. eauto.
  - rewrite insertParts_more, nodeAt_stepWith
      by (try reflexivity; intros; apply TreeFacts.insertParts_name).
    rewrite String.eqb_refl. apply IH.
Qed.

(** The insertion keeps the nodes there are, with their names and their
    pages. *)
Lemma insertParts_keeps pg ps :
  forall parts sofar node n,
    nodeAt node ps = Some n ->
    exists n', nodeAt (insertParts pg sofar parts node) ps = Some n' /\
               name n' = name n /\ page n' = page n.
Proof.
  induction ps as [|x ps IH]; intros parts sofar node n Hat.
  - simpl in Hat. injection Hat as <-. simpl. eexists. split; [reflexivity|].
    split; [apply TreeFacts.insertParts_name|apply TreeFacts.insertParts_page].
  - destruct parts as [|part rest]; [simpl insertParts; eauto|].
    assert (Hold : String.eqb x part = true ->
                   exists c0, List.find (fun c => String.eqb (name c) part) (children node)
                              = Some c0 /\ nodeAt c0 ps = Some n).
    { intros Hx. apply String.eqb_eq in Hx. subst x. simpl in Hat.
      destruct (List.find _ (children node)) as [c0|]; [eauto|discriminate]. }
    destruct rest as [|r rest].
    + rewrite insertParts_last, nodeAt_stepWith by reflexivity.
      destruct (String.eqb x part) eqn:Hx; [|eauto].
      destruct (Hold eq_refl) as (c0 & -> & Hc0). eauto.
    + rewrite insertParts_more, nodeAt_stepWith
        by (try reflexivity; intros; apply TreeFacts.insertParts_name).
      destruct (String.eqb x part) eqn:Hx; [|eauto].
      destruct (Hold eq_refl) as (c0 & -> & Hc0). now apply IH.
Qed.

Lemma nodeAt_leaf nm p pgo ps n :
  nodeAt (mkNode nm p [] pgo) ps = Some n -> ps = [] /\ n = mkNode nm p [] pgo.
Proof. destruct ps; simpl; [now intros [= <-]|discriminate]. Qed.

Lemma properPrefix_cons x a b : properPrefix a b -> properPrefix (x :: a) (x :: b).
Proof. intros (c & Hc & ->). now exists c. Qed.

(** A node of the tree after the insertion was there before, or it lies
    on the way the insertion has gone: at the end of it, with the page,
    or in front of the end, without a page. *)
Lemma insertParts_origin pg parts :
  forall sofar node ps n',
    nodeAt (insertParts pg sofar parts node) ps = Some n' ->
    (exists n, nodeAt node ps = Some n /\ page n' = page n) \/
    (nodeAt node ps = None /\
     ((ps = parts /\ page n' = Some pg) \/ (properPrefix ps parts /\ page n' = None))).
Proof.
  induction parts as [|part rest IH]; intros sofar node ps n' Hat;
    [simpl in Hat; eauto|].
  destruct ps as [|x ps].
  { cbn [nodeAt] in Hat.
    assert (Hn : n' = insertParts pg sofar (part :: rest) node) by congruence.
    subst n'. left. exists node.
    split; [reflexivity|apply TreeFacts.insertParts_page]. }
  assert (Hnode : nodeAt node (part :: ps) =
                  match List.find (fun c => String.eqb (name c) part) (children node) with
                  | Some c0 => nodeAt c0 ps
                  | None => None
                  end) by reflexivity.
  destruct rest as [|r rest].
  - rewrite insertParts_last, nodeAt_stepWith in Hat by reflexivity.
    destruct (String.eqb x part) eqn:Hx; [|eauto].
    apply String.eqb_eq in Hx. subst x. rewrite Hnode.
    destruct (List.find _ (children node)) as [c0|]; [eauto|].
    apply nodeAt_leaf in Hat as [-> ->]. right. split; [reflexivity|]. now left.
  - rewrite insertParts_more, nodeAt_stepWith in Hat
      by (try reflexivity; intros; apply TreeFacts.insertParts_name).
    destruct (String.eqb x part) eqn:Hx; [|eauto].
    apply String.eqb_eq in Hx. subst x. rewrite Hnode.
    apply IH in Hat.
    destruct (List.find _ (children node)) as [c0|].
    + destruct Hat as [Hold|[Hnone [[-> Hpg]|[Hpre Hpg]]]]; [now left| |].
      * right. split; [exact Hnone|]. now left.
      * right. split; [exact Hnone|]. right. split; [now apply properPrefix_cons|exact Hpg].
    + destruct Hat as [(n & Hn & Hpg)|[Hnone [[-> Hpg]|[Hpre Hpg]]]].
      * apply nodeAt_leaf in Hn as [-> ->]. right. split; [reflexivity|].
        right. split; [|exact Hpg]. exists (r :: rest). split; [discriminate|reflexivity].
      * right. split; [reflexivity|]. now left.
      * right. split; [reflexivity|]. right.
        split; [now apply properPrefix_cons|exact Hpg].
Qed.

Lemma fold_keeps pages :
  forall tree ps n,
    nodeAt tree ps = Some n ->
    exists n', nodeAt (fold_left insertPage pages tree) ps = Some n' /\
               page n' = page n.
Proof.
  induction pages as [|pg pages IH]; intros tree ps n Hat; simpl; [eauto|].
  destruct (insertParts_keeps pg ps (pathParts (path pg)) [] tree n Hat)
    as (n1 & Hn1 & _ & Hpg1).
  destruct (IH _ _ _ Hn1) as (n' & Hn' & Hpg'). exists n'. split; [exact Hn'|congruence].
Qed.

(** The segments of every page lead to a node of the tree. *)
Lemma fold_reaches pages :
  forall tree pg,
    In pg pages ->
    is_Some (nodeAt (fold_left insertPage pages tree) (pathParts (path pg))).
Proof.
  induction pages as [|q pages IH]; intros tree pg Hin; [contradiction|].
  simpl. destruct Hin as [->|Hin]; [|now apply IH].
  destruct (insertParts_reaches pg (pathParts (path pg)) [] tree) as [n Hn].
  destruct (fold_keeps pages _ _ _ Hn) as (n' & Hn' & _). unfold insertPage. eauto.
Qed.

Lemma accounted_more done more ps n :
  accounted done ps n -> accounted (done ++ more) ps n.
Proof.
  unfold accounted. destruct (page n).
  - intros [Hin Hps]. split; [apply in_or_app; now left|exact Hps].
  - intros (q & Hin & Hpre). exists q. split; [apply in_or_app; now left|exact Hpre].
Qed.

(** Every node of the tree, the root apart, is accounted for by the
    pages inserted. *)
Lemma fold_accounted pages :
  forall tree done,
    (forall ps n, ps <> [] -> nodeAt tree ps = Some n -> accounted done ps n) ->
    forall ps n, ps <> [] ->
      nodeAt (fold_left insertPage pages tree) ps = Some n ->
      accounted (done ++ pages) ps n.
Proof.
  induction pages as [|pg pages IH]; intros tree done Hinv ps n Hne Hat.
  - rewrite app_nil_r. now apply Hinv.
  - simpl in Hat.
    replace (done ++ pg :: pages)%list with ((done ++ [pg]) ++ pages)%list
      by (now rewrite <- app_assoc).
    apply (IH (insertPage tree pg) (done ++ [pg])%list); [|exact Hne|exact Hat].
    clear ps n Hne Hat. intros ps n Hne Hat. unfold insertPage in Hat.
    apply insertParts_origin in Hat
      as [(n0 & Hn0 & Hpg)|[_ [[-> Hpg]|[Hpre Hpg]]]].
    + pose proof (accounted_more done [pg] ps n0 (Hinv ps n0 Hne Hn0)) as H.
      unfold accounted in *. now rewrite Hpg.
    + unfold accounted. rewrite Hpg. split; [apply in_or_app; right; now left|reflexivity].
    + unfold accounted. rewrite Hpg. exists pg.
      split; [apply in_or_app; right; now left|exact Hpre].
Qed.

Lemma buildTree_accounted pages ps n :
  ps <> [] -> nodeAt (buildTree pages) ps = Some n -> accounted pages ps n.
Proof.
  intros Hne Hat.
  apply (fold_accounted pages root [] ltac:(intros ps' n' Hne' Hat';
           apply nodeAt_leaf in Hat' as [-> _]; contradiction) ps n Hne Hat).
Qed.

Lemma EveryNode_nodeAt (P : TreeNode -> Prop) ps :
  forall node n, EveryNode P node -> nodeAt node ps = Some n -> P n.
Proof.
  induction ps as [|x ps IH]; intros node n Hev Hat; simpl in Hat.
  - inversion Hev; subst. now injection Hat as <-.
  - destruct (List.find _ (children node)) as [c|] eqn:Hfind; [|discriminate].
    apply List.find_some in Hfind as [Hin _].
    inversion Hev as [? _ Hcs]; subst. rewrite List.Forall_forall in Hcs.
    now apply (IH c n (Hcs c Hin)).
Qed.

(** The kinds of the nodes when no page lies on the way to another. *)
Lemma kinds_when_prefix_free pages :
  PrefixFree pages ->
  EveryNode (fun n => exactlyOneKind n /\ namesDistinct n) (buildTree pages).
Proof.
  intros Hfree. unfold buildTree.
  eapply TreeFacts.Built_kinds.
  apply (TreeFacts.fold_insertPage_Built pages (fun _ => False) root).
  - constructor; [apply NoDup_nil_2|constructor].
  - reflexivity.
  - intros q pre Hq Hpre Hne. split; [tauto|].
    intros (p & Hp & Hx). subst pre. now apply (Hfree p q).
Qed.

(** A node with a page is rendered as the link of the page, whatever
    its children. *)
Lemma renderNode_page localeCompare node pg :
  page node = Some pg ->
  renderNode localeCompare node = Template.fileItem (path pg) (title pg).
Proof. destruct node as [nm p cs pgo]. simpl. now intros ->. Qed.

End TreePathFacts.

(** X5 (the first page wins).  A page whose path has the segments of an
    earlier page of the list changes nothing: the tree is the one built
    without it, and the node keeps the page attached first. *)
Theorem later_page_of_same_segments_changes_nothing
    (l1 l2 l3 : list PageInfo) (p q : PageInfo) :
  pathParts (path q) = pathParts (path p) ->
  buildTree (l1 ++ p :: l2 ++ q :: l3) = buildTree (l1 ++ p :: l2 ++ l3).
Proof.
  intros Hq. unfold buildTree.
  rewrite !fold_left_app. simpl. rewrite !fold_left_app. simpl.
  f_equal. unfold insertPage at 1.
  apply TreePathFacts.insertParts_present. rewrite Hq.
  destruct (TreePathFacts.insertParts_reaches p (pathParts (path p)) []
              (fold_left insertPage l1 root)) as [n Hn].
  destruct (TreePathFacts.fold_keeps l2 _ _ _ Hn) as (n' & Hn' & _).
  unfold insertPage at 2. eauto.
Qed.

(** [later_page_of_same_segments_changes_nothing] at a concrete input. *)
Lemma later_page_of_same_segments_changes_nothing_witness :
  let p := mkPageInfo "a/b.html" "a/b.md" "First" 1 in
  let q := mkPageInfo "a//b.html" "a/b.md" "Second" 1 in
  let r := mkPageInfo "c.html" "c.md" "C" 0 in
  buildTree ([] ++ p :: [r] ++ q :: []) = buildTree ([] ++ p :: [r] ++ []).
Proof.
  apply (later_page_of_same_segments_changes_nothing []
           [mkPageInfo "c.html" "c.md" "C" 0] []).
  reflexivity.
Defined.

(** X6 (no page is lost).  When no page lies on the way to another
    page, the segments of every page of the list lead to a node of the
    tree that has no children and carries a page of the list with these
    segments. *)
Theorem page_has_its_node (pages : list PageInfo) (p : PageInfo) :
  Tree_spec.PrefixFree pages -> In p pages -> pathParts (path p) <> [] ->
  exists n q,
    Tree_path.nodeAt (buildTree pages) (pathParts (path p)) = Some n /\
    page n = Some q /\ In q pages /\
    pathParts (path q) = pathParts (path p) /\ children n = [].
Proof.
  intros Hfree Hin Hne.
  destruct (TreePathFacts.fold_reaches pages root p Hin) as [n Hn].
  fold (buildTree pages) in Hn.
  pose proof (TreePathFacts.buildTree_accounted pages _ n Hne Hn) as Hacc.
  unfold Tree_path.accounted in Hacc.
  destruct (page n) as [q|] eqn:Hpage.
  - destruct Hacc as [Hq Hparts]. exists n, q. repeat split; try assumption.
    pose proof (TreePathFacts.EveryNode_nodeAt _ _ _ n
                  (TreePathFacts.kinds_when_prefix_free pages Hfree) Hn) as [Hkind _].
    destruct Hkind as [[Hdir _]|[[_ Hcs] _]]; [|exact Hcs].
    unfold Tree_spec.isDirectoryNode in Hdir. congruence.
  - exfalso. destruct Hacc as (q & Hq & Hpre). exact (Hfree p q Hin Hq Hne Hpre).
Qed.

(** [page_has_its_node] at a concrete input. *)
Lemma page_has_its_node_witness :
  let pb := mkPageInfo "a/b.html" "a/b.md" "B" 1 in
  let pd := mkPageInfo "d.html" "d.md" "D" 0 in
  exists n q,
    Tree_path.nodeAt (buildTree [pb; pd]) (pathParts (path pb)) = Some n /\
    page n = Some q /\ In q [pb; pd] /\
    pathParts (path q) = pathParts (path pb) /\ children n = [].
Proof.
  apply page_has_its_node.
  - intros p q Hp Hq Hne [c [Hc Heq]]. simpl in Hp, Hq.
    destruct Hp as [<-|[<-|[]]]; destruct Hq as [<-|[<-|[]]];
      vm_compute in Heq; try discriminate Heq;
      injection Heq as Heq; now subst c.
  - now left.
  - discriminate.
Defined.

(** X7 (nothing but the pages).  Every node of the tree, the root
    apart, is accounted for: a page attached to it is a page of the
    list whose segments are the place of the node, and a node without a
    page lies on the way to a page of the list. *)
Theorem tree_holds_only_the_pages
    (pages : list PageInfo) (ps : list string) (n : TreeNode) :
  ps <> [] -> Tree_path.nodeAt (buildTree pages) ps = Some n ->
  Tree_path.accounted pages ps n.
Proof. intros Hne Hat. now apply TreePathFacts.buildTree_accounted. Qed.

(** [tree_holds_only_the_pages] at a concrete input. *)
Lemma tree_holds_only_the_pages_witness :
  let pb := mkPageInfo "a/b.html" "a/b.md" "B" 1 in
  Tree_path.accounted [pb] ["a"] (mkNode "a" "a" [mkNode "b.html" "a/b.html" [] (Some pb)] None).
Proof.
  apply (tree_holds_only_the_pages [mkPageInfo "a/b.html" "a/b.md" "B" 1] ["a"]).
  - discriminate.
  - reflexivity.
Defined.

(** X8 (a page below a page).  When the only segment of a page is the
    first segment of a longer path, the page of the longer path is put
    below the node of the first page and is left out of the rendering,
    which shows the link of the first page only; the count of the pages
    still is two. *)
Theorem page_below_a_page_is_not_rendered
    (localeCompare : string -> string -> Z) (px py : PageInfo)
    (nm r : string) (rest : list string) :
  pathParts (path px) = [nm] ->
  pathParts (path py) = nm :: r :: rest ->
  localeCompare (path px) (path py) <= 0 ->
  generateTocHtml localeCompare [px; py] =
  Template.tocPage (Template.fileItem (path px) (title px)) "2".
Proof.
  intros Hx Hy Hle.
  assert (Hs : sortedPages localeCompare [px; py] = [px; py]).
  { unfold sortedPages. simpl. unfold comparePages at 1.
    apply Z.leb_le in Hle. now rewrite Hle. }
  unfold generateTocHtml. rewrite Hs. f_equal.
  unfold buildTree, innerTree, renderedRootChildren. cbn [fold_left].
  unfold insertPage. rewrite Hx, Hy.
  assert (H1 : insertParts px [] [nm] root =
               mkNode "Project" "" [mkNode nm (Str.join "/" [nm]) [] (Some px)] None)
    by reflexivity.
  rewrite H1, TreePathFacts.insertParts_more.
  unfold Tree_path.stepWith. cbn [children updateFirst name].
  rewrite String.eqb_refl. cbn [children map].
  unfold Str.join. cbn [String.concat].
  apply TreePathFacts.renderNode_page.
  now rewrite TreeFacts.insertParts_page.
Qed.

(** [page_below_a_page_is_not_rendered] at a concrete input. *)
Lemma page_below_a_page_is_not_rendered_witness :
  generateTocHtml Str.codeUnitCompare
    [mkPageInfo "x.html" "x.md" "X" 0; mkPageInfo "x.html/y.html" "x.html/y.md" "Y" 1] =
  Template.tocPage (Template.fileItem "x.html" "X") "2".
Proof.
  apply (page_below_a_page_is_not_rendered Str.codeUnitCompare
           (mkPageInfo "x.html" "x.md" "X" 0)
           (mkPageInfo "x.html/y.html" "x.html/y.md" "Y" 1) "x.html" "y.html" []).
  - reflexivity.
  - reflexivity.
  - vm_compute. discriminate.
Defined.

(** ** The title: what the heading pattern takes *)

Module TitleFacts.

Import Title_spec.

#[local] Arguments String.append : simpl nomatch.

Lemma append_split (a b a' b' : string) :
  (a ++ b = a' ++ b')%string -> (String.length a <= String.length a')%nat ->
  exists d, a' = (a ++ d)%string /\ b = (d ++ b')%string.
Proof.
  revert a'. induction a as [|x a IH]; intros a' Heq Hlen; simpl in *.
  - exists a'. now split.
  - destruct a' as [|x' a']; [simpl in Hlen; lia|]. simpl in *.
    injection Heq as -> Heq.
    destruct (IH a' Heq ltac:(lia)) as (d & -> & ->). now exists d.
Qed.

Lemma every_append cls (a b : string) :
  Str_spec.every cls (a ++ b) = Str_spec.every cls a && Str_spec.every cls b.
Proof.
  induction a as [|x a IH]; simpl; [reflexivity|]. now rewrite IH, andb_assoc.
Qed.

Lemma length_zero (a : string) : String.length a = 0%nat -> a = "".
Proof. destruct a; [reflexivity|discriminate]. Qed.

(** The group of a match is not empty and holds no line terminator. *)
Lemma h1Match_one_line text cap :
  Regex.h1Match text = Some cap ->
  cap <> "" /\ Str_spec.every Regex.isDot cap = true.
Proof.
  intros H. apply RegexFacts.h1Match_Some in H as (pre & ws & post & Hm & _).
  destruct Hm. now split.
Qed.

(** A heading at the start of the text: the white space behind [#] is
    passed over, line terminators included; the group begins at the
    first other code unit and runs to the end of its line. *)
Lemma h1Match_leading ws line post c line' :
  ws <> "" -> Str_spec.every Regex.isWhiteSpace ws = true ->
  line = String c line' -> Regex.isWhiteSpace c = false ->
  Str_spec.every Regex.isDot line = true -> Regex.atEol post = true ->
  Regex.h1Match ("#" ++ ws ++ line ++ post) = Some line.
Proof.
  intros Hws_some Hws Hline Hc Hdot Heol.
  assert (Hm : HeadingMatch ("#" ++ ws ++ line ++ post) "" ws line post).
  { constructor; try assumption; [reflexivity|now left|]. subst line. discriminate. }
  destruct (Regex.h1Match ("#" ++ ws ++ line ++ post)) as [cap|] eqn:E;
    [|exfalso; exact (RegexFacts.h1Match_None _ E _ _ _ _ Hm)].
  f_equal.
  destruct (RegexFacts.h1Match_Some _ _ E) as (pre0 & ws0 & post0 & Hm0 & Hfirst).
  specialize (Hfirst _ _ _ _ Hm). unfold precedes in Hfirst. simpl in Hfirst.
  destruct Hfirst as [Hlt|[Hpre Hrest]]; [lia|].
  apply length_zero in Hpre. subst pre0.
  destruct Hm0 as [Ht0 _ _ Hws0 _ Hcap0 _]. simpl in Ht0. injection Ht0 as Ht0.
  destruct Hrest as [Hlt|[Hlen Hcap]].
  - exfalso.
    destruct (append_split _ _ _ _ Ht0 ltac:(lia)) as (d & -> & Hd).
    rewrite every_append in Hws0. apply andb_prop in Hws0 as [_ Hdws].
    destruct d as [|x d].
    + rewrite AppendFacts.length_append in Hlt. simpl in Hlt. lia.
    + subst line. simpl in Hd. injection Hd as <- _.
      simpl in Hdws. rewrite Hc in Hdws. discriminate.
  - destruct (RegexFacts.append_same_length _ _ _ _ Ht0 Hlen) as [<- Ht1].
    destruct (append_split _ _ _ _ Ht1 Hcap) as (d & -> & Hd).
    destruct d as [|x d]; [now rewrite AppendFacts.append_nil_r|].
    exfalso. rewrite every_append in Hcap0. apply andb_prop in Hcap0 as [_ Hdcap].
    simpl in Hdcap. apply andb_prop in Hdcap as [Hx _].
    subst post. simpl in Heol. unfold Regex.isDot in Hx. rewrite Heol in Hx. discriminate.
Qed.

End TitleFacts.

(** X9 (a title is one line).  A title taken from a heading is not
    empty and holds no line terminator. *)
Theorem heading_title_is_one_line (mdPath mdContent cap : string) :
  Regex.h1Match mdContent = Some cap ->
  pageTitle mdPath mdContent = cap /\
  cap <> "" /\ Str_spec.every Regex.isDot cap = true.
Proof.
  intros H. split; [unfold pageTitle; now rewrite H|].
  now apply (TitleFacts.h1Match_one_line mdContent).
Qed.

(** [heading_title_is_one_line] at a concrete input. *)
Lemma heading_title_is_one_line_witness :
  pageTitle "/w/a.md" ("intro" ++ String "010" "# Top  " ++ String "010" "text") = "Top  " /\
  "Top  " <> "" /\ Str_spec.every Regex.isDot "Top  " = true.
Proof.
  apply (heading_title_is_one_line "/w/a.md"
           ("intro" ++ String "010" "# Top  " ++ String "010" "text")).
  reflexivity.
Defined.

(** X10 (a heading at the start).  When the text begins with [#] and
    white space, the title is what stands between that white space and
    the end of the line: the white space may run over line terminators,
    so that a lone [#] takes the next line of text as the title, and
    white space at the end of the line is part of the title. *)
Theorem title_of_leading_heading
    (mdPath ws line post : string) (c : ascii) (line' : string) :
  ws <> "" -> Str_spec.every Regex.isWhiteSpace ws = true ->
  line = String c line' -> Regex.isWhiteSpace c = false ->
  Str_spec.every Regex.isDot line = true -> Regex.atEol post = true ->
  pageTitle mdPath ("#" ++ ws ++ line ++ post) = line.
Proof.
  intros. unfold pageTitle.
  now rewrite (TitleFacts.h1Match_leading ws line post c line').
Qed.

(** [title_of_leading_heading] at a concrete input. *)
Lemma title_of_leading_heading_witness :
  pageTitle "/w/a.md"
    ("#" ++ String "010" " " ++ "Notes " ++ String "010" "# Other") = "Notes ".
Proof.
  apply (title_of_leading_heading "/w/a.md" (String "010" " ") "Notes "
           (String "010" "# Other") "N" "otes ");
    try reflexivity; discriminate.
Defined.

(** ** The build: sources and outputs *)

Module SourceFacts.

Import Walk_spec Build_spec.

#[local] Arguments String.append : simpl nomatch.

Lemma substring_cut (s : string) :
  forall n m, (n + m)%nat = String.length s ->
              s = (substring 0 n s ++ substring n m s)%string.
Proof.
  induction s as [|x s IH]; intros n m Hlen; simpl in Hlen.
  - destruct n, m; try discriminate. reflexivity.
  - destruct n as [|n]; simpl.
    + destruct m as [|m]; [discriminate|]. simpl. injection Hlen as Hlen.
      subst m. now rewrite AppendFacts.substring_all.
    + f_equal. apply IH. lia.
Qed.

(** A string that ends with [p] is a string followed by [p]. *)
Lemma endsWith_inv (p s : string) :
  Str.endsWith p s = true -> exists a, s = (a ++ p)%string.
Proof.
  unfold Str.endsWith. intros H. apply andb_prop in H as [Hlen Heq].
  apply Nat.leb_le in Hlen. apply String.eqb_eq in Heq.
  exists (substring 0 (String.length s - String.length p) s).
  pose proof (substring_cut s (String.length s - String.length p) (String.length p)
                ltac:(lia)) as H.
  now rewrite Heq in H.
Qed.

Lemma tail_ends cs : forall c f,
  last (c :: cs) = Some f -> exists a, (c ++ tailOf cs)%string = (a ++ f)%string.
Proof.
  induction cs as [|c2 cs IH]; intros c f Hlast.
  - simpl in Hlast. injection Hlast as <-. exists "". simpl.
    apply AppendFacts.append_nil_r.
  - destruct (IH c2 f Hlast) as (a & Ha).
    exists (c ++ "/" ++ a)%string. simpl. rewrite Ha.
    now rewrite !AppendFacts.append_assoc.
Qed.

(** What the walk returns is a source below [cwd]. *)
Lemma Discovered_isSource cwd d p :
  NamesOk d -> Discovered cwd d p -> isSource cwd p.
Proof.
  intros Hok (cs & f & -> & Hat & Hlast & Hmd & Hex).
  pose proof (WalkFacts.FileAt_names d cs Hok Hat) as Hnames.
  destruct cs as [|c cs]; [discriminate|].
  destruct (tail_ends cs c f Hlast) as (a & Ha).
  destruct (endsWith_inv _ _ Hmd) as (s & ->).
  inversion Hnames as [|? ? [_ Hc] _]; subst.
  inversion Hex as [|? ? Hnot _]; subst.
  exists (a ++ s)%string, c, (tailOf cs). repeat split.
  - rewrite WalkFacts.below_tailOf. unfold Path.join. simpl.
    rewrite Ha. now rewrite !AppendFacts.append_assoc.
  - rewrite Ha. now rewrite AppendFacts.append_assoc.
  - exact Hc.
  - intros ->. apply Hnot. now left.
  - destruct cs; [now left|right]. simpl. eauto.
Qed.

(** The page of a source is written below ["dist"], at the path of the
    source with [.html] for [.md]. *)
Lemma outPath_source cwd stem :
  outPath cwd (Path.join cwd (stem ++ ".md")) = Path.join (DIST_DIR cwd) (stem ++ ".html").
Proof.
  unfold outPath, SRC_DIR.
  now rewrite AppendFacts.relative_join, AppendFacts.replaceMdExt_md.
Qed.

(** Nothing below ["dist"] is a source. *)
Lemma dist_not_source cwd x q :
  isSource cwd q -> Path.join (DIST_DIR cwd) x <> q.
Proof.
  intros (stem & c & rest & -> & Hstem & Hc & Hdist & Hrest) Heq.
  unfold DIST_DIR, Path.join in Heq. rewrite Hstem in Heq.
  rewrite !AppendFacts.append_assoc in Heq.
  apply (String.app_inj cwd) in Heq. simpl in Heq. injection Heq as Heq.
  change ("dist/" ++ x)%string with ("dist" ++ String "/" x)%string in Heq.
  destruct (AppendFacts.segment_unique "dist" c (String "/" x) rest eq_refl Hc
              (or_intror (ex_intro _ x eq_refl)) Hrest Heq) as [Hd _].
  now apply Hdist.
Qed.

Lemma outPath_not_source cwd p q :
  isSource cwd q -> outPath cwd p <> q.
Proof. intros Hq. unfold outPath. now apply dist_not_source. Qed.

Lemma tocPath_not_source cwd q : isSource cwd q -> tocPath cwd <> q.
Proof. intros Hq. unfold tocPath. now apply dist_not_source. Qed.

(** Different sources are written to different paths. *)
Lemma outPath_inj cwd p q :
  isSource cwd p -> isSource cwd q -> outPath cwd p = outPath cwd q -> p = q.
Proof.
  intros (s1 & _ & _ & -> & _) (s2 & _ & _ & -> & _) Heq.
  rewrite !outPath_source in Heq. unfold Path.join in Heq.
  apply (String.app_inj (DIST_DIR cwd)) in Heq. simpl in Heq. injection Heq as Heq.
  assert (Hlen : String.length s1 = String.length s2).
  { apply (f_equal String.length) in Heq.
    rewrite !AppendFacts.length_append in Heq. simpl in Heq. lia. }
  destruct (RegexFacts.append_same_length _ _ _ _ Heq Hlen) as [-> _]. reflexivity.
Qed.

(** The page of a source lies at the path of the table of contents
    only when the source is ["toc.md"] in [cwd]. *)
Lemma outPath_toc cwd stem :
  outPath cwd (Path.join cwd (stem ++ ".md")) = tocPath cwd <-> stem = "toc".
Proof.
  rewrite outPath_source. unfold tocPath, Path.join. split.
  - intros Heq. apply (String.app_inj (DIST_DIR cwd)) in Heq.
    simpl in Heq. injection Heq as Heq.
    change "toc.html" with ("toc" ++ ".html")%string in Heq.
    assert (Hlen : String.length stem = String.length "toc").
    { apply (f_equal String.length) in Heq.
      rewrite !AppendFacts.length_append in Heq. simpl in Heq. simpl. lia. }
    now destruct (RegexFacts.append_same_length _ _ _ _ Heq Hlen).
  - now intros ->.
Qed.

End SourceFacts.

Module BuildAllFacts.

Import Walk_spec Walk_order Build_spec.

Section Facts.
Variable localeCompare : string -> string -> Z.
Variable marked : string -> string.
Variable cwd : string.

Lemma convert_readable p c disk :
  files disk !! p = Some c ->
  convertMarkdownToHtml marked cwd p disk =
    (Some (pageOf cwd p c),
     mkDisk (<[outPath cwd p := htmlOf marked p c]> (files disk))
            (list_to_set (Path.ancestors (Path.dirname (outPath cwd p))) ∪ dirs disk)).
Proof.
  intros Hread.
  pose proof (BuildFacts.convert_ok marked cwd p c disk Hread) as H.
  cbv zeta in H. exact H.
Qed.

(** A source that cannot be read: the conversion rejects before it
    touches the disk. *)
Lemma convert_missing p disk :
  files disk !! p = None -> convertMarkdownToHtml marked cwd p disk = (None, disk).
Proof.
  intros Hread. unfold convertMarkdownToHtml, await, readFile. now rewrite Hread.
Qed.

Lemma pagesOf_ext d1 d2 l :
  (forall p, In p l -> files d1 !! p = files d2 !! p) ->
  pagesOf cwd d1 l = pagesOf cwd d2 l.
Proof.
  intros H. unfold pagesOf. apply map_ext_in. intros p Hp.
  unfold contentOf. now rewrite (H p Hp).
Qed.

(** All conversions, one after the other: what they resolve with and
    what they leave on disk, when no page is written over a source or
    over another page. *)
Lemma all_convert mdFiles :
  forall disk,
    (forall p q, In p mdFiles -> In q mdFiles -> outPath cwd p <> q) ->
    NoDup (map (outPath cwd) mdFiles) ->
    exists r disk',
      all (map (convertMarkdownToHtml marked cwd) mdFiles) disk = (r, disk') /\
      ((forall p, In p mdFiles -> is_Some (files disk !! p)) ->
       r = Some (pagesOf cwd disk mdFiles)) /\
      ((exists p, In p mdFiles /\ files disk !! p = None) -> r = None) /\
      (forall p c, In p mdFiles -> files disk !! p = Some c ->
                   files disk' !! outPath cwd p = Some (htmlOf marked p c)) /\
      (forall k, (forall p, In p mdFiles -> is_Some (files disk !! p) ->
                            outPath cwd p <> k) ->
                 files disk' !! k = files disk !! k).
Proof.
  induction mdFiles as [|p ms IH]; intros disk Hsrc Hnd.
  - exists (Some []), disk. simpl. repeat split; try reflexivity.
    + intros (p & [] & _).
    + intros p c [].
  - simpl in Hnd. apply NoDup_cons in Hnd as [Hfresh Hnd].
    assert (Hsrc' : forall a b, In a ms -> In b ms -> outPath cwd a <> b)
      by (intros a b Ha Hb; apply Hsrc; now right).
    assert (Hout : forall q, In q ms -> outPath cwd q <> outPath cwd p).
    { intros q Hq Heq. apply Hfresh. rewrite <- Heq.
      apply list_elem_of_In, in_map, Hq. }
    simpl. destruct (files disk !! p) as [c|] eqn:Hread.
    + rewrite (convert_readable p c disk Hread).
      set (d1 := mkDisk (<[outPath cwd p := htmlOf marked p c]> (files disk))
                        (list_to_set (Path.ancestors (Path.dirname (outPath cwd p)))
                           ∪ dirs disk)).
      assert (Hsame : forall q, In q ms -> files d1 !! q = files disk !! q).
      { intros q Hq. simpl. apply lookup_insert_ne. apply Hsrc; [now left|now right]. }
      destruct (IH d1 Hsrc' Hnd) as (rs & d2 & Hall & HA & HB & HC & HD).
      rewrite Hall.
      eexists _, d2. split; [reflexivity|]. split; [|split; [|split]].
      * intros Hreadable. rewrite HA.
        -- rewrite (pagesOf_ext d1 disk ms Hsame).
           assert (Hc : contentOf disk p = c) by (unfold contentOf; now rewrite Hread).
           unfold pagesOf. simpl. now rewrite Hc.
        -- intros q Hq. rewrite (Hsame q Hq). apply Hreadable. now right.
      * intros (q & [<-|Hq] & Hmiss); [congruence|].
        rewrite HB; [reflexivity|]. exists q. split; [exact Hq|].
        now rewrite (Hsame q Hq).
      * intros q c' [<-|Hq] Hc'.
        -- rewrite HD.
           ++ simpl. rewrite lookup_insert_eq. congruence.
           ++ intros q Hq _. now apply Hout.
        -- apply HC; [exact Hq|]. now rewrite (Hsame q Hq).
      * intros k Hk. rewrite HD.
        -- simpl. apply lookup_insert_ne. apply Hk; [now left|eauto].
        -- intros q Hq Hsome. apply Hk; [now right|]. now rewrite <- (Hsame q Hq).
    + rewrite (convert_missing p disk Hread).
      destruct (IH disk Hsrc' Hnd) as (rs & d2 & Hall & HA & HB & HC & HD).
      rewrite Hall. exists None, d2. split; [reflexivity|]. split; [|split; [|split]].
      * intros Hreadable. destruct (Hreadable p (or_introl eq_refl)) as [x Hx]. congruence.
      * reflexivity.
      * intros q c' [<-|Hq] Hc'; [congruence|]. now apply HC.
      * intros k Hk. apply HD. intros q Hq Hsome. apply Hk; [now right|exact Hsome].
Qed.

(** The build behind the walk. *)
Lemma build_eq tree disk mdFiles :
  getAllMarkdownFiles (SRC_DIR cwd) tree [] = Some mdFiles -> mdFiles <> [] ->
  build localeCompare marked cwd tree disk =
  let '(r, d1) := all (map (convertMarkdownToHtml marked cwd) mdFiles)
                      (snd (mkdir (DIST_DIR cwd) disk)) in
  match r with
  | Some pages => writeFile (tocPath cwd) (generateTocHtml localeCompare pages) d1
  | None => (None, d1)
  end.
Proof.
  intros Hwalk Hne. unfold build, await. simpl. rewrite Hwalk.
  destruct mdFiles as [|p ms]; [contradiction|]. simpl.
  destruct (convertMarkdownToHtml marked cwd p _) as [r1 d1].
  destruct (all _ d1) as [rs d2]. destruct r1, rs; reflexivity.
Qed.

(** What the walk returns: sources, none of them twice. *)
Lemma walk_sources tree mdFiles :
  NamesOk tree -> UniqueNames tree ->
  getAllMarkdownFiles (SRC_DIR cwd) tree [] = Some mdFiles ->
  Forall (isSource cwd) mdFiles /\ NoDup mdFiles.
Proof.
  intros Hok Hu Hwalk. split.
  - destruct (WalkFacts.walk_sound tree _ [] _ Hwalk) as (new & -> & Hnew). simpl.
    eapply List.Forall_impl; [|exact Hnew]. intros p Hp.
    now apply (SourceFacts.Discovered_isSource cwd tree).
  - rewrite (WalkOrderFacts.walk_listing tree _ [] _ Hwalk). simpl.
    apply NoDup_fmap_2_strong; [|now apply WalkOrderFacts.listing_NoDup].
    intros cs cs' Hcs Hcs' Heq. apply list_elem_of_In in Hcs, Hcs'.
    apply (WalkFacts.below_inj (SRC_DIR cwd)); [| |exact Heq];
      apply (WalkFacts.FileAt_names tree); auto using WalkOrderFacts.listing_FileAt.
Qed.

Lemma sources_outputs mdFiles :
  Forall (isSource cwd) mdFiles -> NoDup mdFiles ->
  (forall p q, In p mdFiles -> In q mdFiles -> outPath cwd p <> q) /\
  NoDup (map (outPath cwd) mdFiles).
Proof.
  intros Hsrc Hnd. rewrite List.Forall_forall in Hsrc. split.
  - intros p q _ Hq. apply SourceFacts.outPath_not_source. now apply Hsrc.
  - apply NoDup_fmap_2_strong; [|exact Hnd].
    intros p q Hp Hq. apply list_elem_of_In in Hp, Hq.
    apply SourceFacts.outPath_inj; now apply Hsrc.
Qed.

End Facts.

End BuildAllFacts.

Module BuildRunFacts.

Import Walk_spec Walk_order Build_spec.

#[local] Arguments String.append : simpl nomatch.

(** The page of the table of contents is no page of a source: the two
    templates begin differently. *)
Lemma toc_is_no_page (a b c d : string) :
  Template.tocPage a b <> Template.htmlTemplate c d.
Proof. unfold Template.tocPage, Template.htmlTemplate. simpl. discriminate. Qed.

Section Facts.
Variable localeCompare : string -> string -> Z.
Variable marked : string -> string.
Variable cwd : string.

(** A build all of whose sources can be read. *)
Lemma build_success tree disk mdFiles :
  NamesOk tree -> UniqueNames tree ->
  getAllMarkdownFiles (SRC_DIR cwd) tree [] = Some mdFiles -> mdFiles <> [] ->
  (forall p, In p mdFiles -> is_Some (files disk !! p)) ->
  exists disk',
    build localeCompare marked cwd tree disk = (Some tt, disk') /\
    files disk' !! tocPath cwd =
      Some (generateTocHtml localeCompare (pagesOf cwd disk mdFiles)) /\
    (forall p, In p mdFiles -> outPath cwd p <> tocPath cwd ->
               files disk' !! outPath cwd p = Some (htmlOf marked p (contentOf disk p))) /\
    (forall k, k <> tocPath cwd -> (forall p, In p mdFiles -> outPath cwd p <> k) ->
               files disk' !! k = files disk !! k) /\
    (forall p, In p mdFiles -> files disk' !! p = files disk !! p).
Proof.
  intros Hok Hu Hwalk Hne Hread.
  destruct (BuildAllFacts.walk_sources cwd tree mdFiles Hok Hu Hwalk) as [Hsrc Hnd].
  destruct (BuildAllFacts.sources_outputs cwd mdFiles Hsrc Hnd) as [H1 H2].
  rewrite (BuildAllFacts.build_eq localeCompare marked cwd tree disk mdFiles Hwalk Hne).
  destruct (BuildAllFacts.all_convert marked cwd mdFiles
              (snd (mkdir (DIST_DIR cwd) disk)) H1 H2)
    as (r & d1 & Hall & HA & _ & HC & HD).
  rewrite Hall, (HA Hread). cbv zeta. unfold writeFile.
  assert (Hrest : forall k, k <> tocPath cwd ->
                    (forall p, In p mdFiles -> outPath cwd p <> k) ->
                    <[tocPath cwd := generateTocHtml localeCompare
                        (pagesOf cwd (snd (mkdir (DIST_DIR cwd) disk)) mdFiles)]>
                      (files d1) !! k = files disk !! k).
  { intros k Hk Hout. rewrite lookup_insert_ne by congruence.
    rewrite HD; [reflexivity|]. intros p Hp _. now apply Hout. }
  eexists. split; [reflexivity|]. simpl. split; [|split; [|split]].
  - now rewrite lookup_insert_eq.
  - intros p Hp Htoc. rewrite lookup_insert_ne by congruence.
    destruct (Hread p Hp) as [c Hc]. unfold contentOf. rewrite Hc. simpl.
    now apply HC.
  - exact Hrest.
  - intros p Hp. rewrite List.Forall_forall in Hsrc. apply Hrest.
    + intros Heq. symmetry in Heq. revert Heq.
      now apply SourceFacts.tocPath_not_source, Hsrc.
    + intros q Hq. now apply H1.
Qed.

(** A build one of whose sources cannot be read. *)
Lemma build_missing tree disk mdFiles p0 :
  NamesOk tree -> UniqueNames tree ->
  getAllMarkdownFiles (SRC_DIR cwd) tree [] = Some mdFiles ->
  In p0 mdFiles -> files disk !! p0 = None ->
  exists disk',
    build localeCompare marked cwd tree disk = (None, disk') /\
    (forall p c, In p mdFiles -> files disk !! p = Some c ->
                 files disk' !! outPath cwd p = Some (htmlOf marked p c)) /\
    (forall k, (forall p, In p mdFiles -> outPath cwd p <> k) ->
               files disk' !! k = files disk !! k).
Proof.
  intros Hok Hu Hwalk Hp0 Hmiss.
  destruct (BuildAllFacts.walk_sources cwd tree mdFiles Hok Hu Hwalk) as [Hsrc Hnd].
  destruct (BuildAllFacts.sources_outputs cwd mdFiles Hsrc Hnd) as [H1 H2].
  assert (Hne : mdFiles <> []) by (intros ->; contradiction).
  rewrite (BuildAllFacts.build_eq localeCompare marked cwd tree disk mdFiles Hwalk Hne).
  destruct (BuildAllFacts.all_convert marked cwd mdFiles
              (snd (mkdir (DIST_DIR cwd) disk)) H1 H2)
    as (r & d1 & Hall & _ & HB & HC & HD).
  rewrite Hall, HB by eauto. exists d1. split; [reflexivity|]. split.
  - exact HC.
  - intros k Hk. rewrite HD; [reflexivity|]. intros p Hp _. now apply Hk.
Qed.

End Facts.

Lemma tailOf_join c cs :
  tailOf (c :: cs) = ("/" ++ Str.join "/" (c :: cs))%string.
Proof.
  revert c. induction cs as [|c2 cs IH]; intros c.
  - simpl. now rewrite AppendFacts.append_nil_r.
  - change (tailOf (c :: c2 :: cs)) with ("/" ++ c ++ tailOf (c2 :: cs))%string.
    rewrite IH. reflexivity.
Qed.

(** A path below [dir] is [dir] joined with its components, themselves
    joined by the separator. *)
Lemma below_join dir cs :
  cs <> [] -> below dir cs = Path.join dir (Str.join "/" cs).
Proof.
  intros Hne. destruct cs as [|c cs]; [contradiction|].
  now rewrite WalkFacts.below_tailOf, tailOf_join.
Qed.

(** The components joined by the separator split into the components. *)
Lemma split_join cs :
  cs <> [] -> Forall entryNameOk cs -> Str.split "/"%char (Str.join "/" cs) = cs.
Proof.
  intros Hne Hok. destruct cs as [|c cs]; [contradiction|]. clear Hne.
  revert c Hok. induction cs as [|c2 cs IH]; intros c Hok;
    inversion Hok as [|? ? [_ Hc] Hcs]; subst.
  - simpl. now apply PathFacts.split_no_sep.
  - change (Str.join "/" (c :: c2 :: cs))
      with (c ++ String "/" (Str.join "/" (c2 :: cs)))%string.
    rewrite PathFacts.split_app_sep, (PathFacts.split_no_sep _ _ Hc), (IH c2 Hcs).
    reflexivity.
Qed.

End BuildRunFacts.

Module ExampleFacts.

Ltac unique_names :=
  repeat first
    [ apply Walk_order.UniqueNames_file
    | apply Walk_order.UniqueNames_other
    | apply Walk_order.UniqueNames_dir
    | apply List.Forall_nil
    | apply List.Forall_cons
    | (apply (bool_decide_unpack _); vm_compute; exact I) ].

Lemma tree_names : Walk_spec.NamesOk Example.tree.
Proof. repeat constructor; discriminate. Qed.

Lemma tree_unique : Walk_order.UniqueNames Example.tree.
Proof. unique_names. Qed.

Lemma tocTree_names : Walk_spec.NamesOk Example.tocTree.
Proof. repeat constructor; discriminate. Qed.

Lemma tocTree_unique : Walk_order.UniqueNames Example.tocTree.
Proof. unique_names. Qed.

Lemma disk_readable p :
  In p ["/w/a.md"; "/w/n/b.md"] -> is_Some (files Example.disk !! p).
Proof. intros [<-|[<-|[]]]; eexists; vm_compute; reflexivity. Qed.

Lemma tocDisk_readable p :
  In p ["/w/toc.md"; "/w/n/b.md"] -> is_Some (files Example.tocDisk !! p).
Proof. intros [<-|[<-|[]]]; eexists; vm_compute; reflexivity. Qed.

End ExampleFacts.

(** X11 (one page per source).  The conversion of a source below the
    working directory, on a disk that accepts its output, writes one
    file and no other: the page, at the path of the source below
    ["dist"] with [.html] for [.md].  The record returned names this
    path relative to ["dist"], which is the link the table of contents
    will show. *)
Theorem conversion_writes_one_page
    (marked : string -> string) (cwd stem mdContent : string) (disk : Disk) :
  files disk !! Path.join (SRC_DIR cwd) (stem ++ ".md") = Some mdContent ->
  Build_spec.accepts disk []
    (Build_spec.outPath cwd (Path.join (SRC_DIR cwd) (stem ++ ".md"))) = true ->
  exists pg disk',
    convertMarkdownToHtml marked cwd (Path.join (SRC_DIR cwd) (stem ++ ".md")) disk
      = (Some pg, disk') /\
    path pg = (stem ++ ".html")%string /\
    relativePath pg = (stem ++ ".md")%string /\
    files disk' !! Path.join (DIST_DIR cwd) (path pg)
      = Some (Template.htmlTemplate (title pg) (marked mdContent)) /\
    forall k, k <> Path.join (DIST_DIR cwd) (path pg) ->
              files disk' !! k = files disk !! k.
Proof.
  intros Hread _. unfold SRC_DIR in *.
  rewrite (BuildAllFacts.convert_readable marked cwd _ mdContent disk Hread).
  rewrite SourceFacts.outPath_source.
  eexists _, _. split; [reflexivity|]. unfold Build_spec.pageOf. simpl.
  rewrite SourceFacts.outPath_source, !AppendFacts.relative_join.
  repeat split.
  - apply lookup_insert_eq.
  - intros k Hk. now apply lookup_insert_ne.
Qed.

(** [conversion_writes_one_page] at a concrete input. *)
Lemma conversion_writes_one_page_witness :
  exists pg disk',
    convertMarkdownToHtml (fun s => s) "/w" (Path.join (SRC_DIR "/w") ("n/b" ++ ".md"))
      Example.disk = (Some pg, disk') /\
    path pg = ("n/b" ++ ".html")%string /\
    relativePath pg = ("n/b" ++ ".md")%string /\
    files disk' !! Path.join (DIST_DIR "/w") (path pg)
      = Some (Template.htmlTemplate (title pg) "text") /\
    forall k, k <> Path.join (DIST_DIR "/w") (path pg) ->
              files disk' !! k = files Example.disk !! k.
Proof.
  apply (conversion_writes_one_page (fun s => s) "/w" "n/b" "text" Example.disk).
  - vm_compute. reflexivity.
  - vm_compute. reflexivity.
Defined.

(** X12 (the depth is the number of folders).  For a source that lies
    below the working directory at the components [cs], on a disk that
    accepts its output, the record has the components joined by ["/"]
    as its source-relative path and the number of the folders among
    them, the length of [cs] less one, as its depth. *)
Theorem depth_counts_folders
    (marked : string -> string) (cwd mdContent : string) (cs : list string)
    (disk : Disk) :
  cs <> [] -> Forall Walk_spec.entryNameOk cs ->
  files disk !! Walk_spec.below (SRC_DIR cwd) cs = Some mdContent ->
  Build_spec.accepts disk []
    (Build_spec.outPath cwd (Walk_spec.below (SRC_DIR cwd) cs)) = true ->
  exists pg disk',
    convertMarkdownToHtml marked cwd (Walk_spec.below (SRC_DIR cwd) cs) disk
      = (Some pg, disk') /\
    relativePath pg = Str.join "/" cs /\
    depth pg = Z.of_nat (List.length cs) - 1.
Proof.
  intros Hne Hok Hread _. unfold SRC_DIR in *.
  rewrite (BuildAllFacts.convert_readable marked cwd _ mdContent disk Hread).
  eexists _, _. split; [reflexivity|]. unfold Build_spec.pageOf, SRC_DIR. simpl.
  rewrite (BuildRunFacts.below_join cwd cs Hne), AppendFacts.relative_join.
  split; [reflexivity|]. unfold pageDepth.
  now rewrite (BuildRunFacts.split_join cs Hne Hok).
Qed.

(** [depth_counts_folders] at a concrete input. *)
Lemma depth_counts_folders_witness :
  exists pg disk',
    convertMarkdownToHtml (fun s => s) "/w" (Walk_spec.below (SRC_DIR "/w") ["n"; "b.md"])
      Example.disk = (Some pg, disk') /\
    relativePath pg = Str.join "/" ["n"; "b.md"] /\
    depth pg = Z.of_nat (List.length ["n"; "b.md"]) - 1.
Proof.
  apply (depth_counts_folders (fun s => s) "/w" "text" ["n"; "b.md"] Example.disk).
  - discriminate.
  - repeat constructor; discriminate.
  - vm_compute. reflexivity.
  - vm_compute. reflexivity.
Defined.

(** X13 (a directory that cannot be read).  When the walk cannot read
    the working directory or a directory it enters, the build rejects
    and has written no file. *)
Theorem build_rejects_when_walk_rejects
    (localeCompare : string -> string -> Z) (marked : string -> string)
    (cwd : string) (tree : Entry) (disk : Disk) :
  Walk_order.walkable tree = false ->
  fst (build localeCompare marked cwd tree disk) = None /\
  files (snd (build localeCompare marked cwd tree disk)) = files disk.
Proof.
  intros Hw.
  assert (Hwalk : getAllMarkdownFiles (SRC_DIR cwd) tree [] = None).
  { destruct (getAllMarkdownFiles (SRC_DIR cwd) tree []) as [res|] eqn:E; [|reflexivity].
    assert (Hs : is_Some (getAllMarkdownFiles (SRC_DIR cwd) tree [])) by (rewrite E; eauto).
    apply WalkOrderFacts.walk_returns_iff in Hs. congruence. }
  unfold build, await, mkdir. simpl. rewrite Hwalk. now split.
Qed.

(** [build_rejects_when_walk_rejects] at a concrete input. *)
Lemma build_rejects_when_walk_rejects_witness :
  fst (build Str.codeUnitCompare (fun s => s) "/w" Example.lockedTree Example.disk) = None /\
  files (snd (build Str.codeUnitCompare (fun s => s) "/w" Example.lockedTree Example.disk))
    = files Example.disk.
Proof.
  apply build_rejects_when_walk_rejects. reflexivity.
Defined.

(** X14 (a build that succeeds).  When the names of the tree are those
    of directory entries, different in every directory, every source
    the walk returns can be read and the disk accepts the outputs, the
    build resolves; the file
    ["toc.html"] below ["dist"] then holds the table of contents of the
    records of all sources, every source has its page at its output
    path (the path of the table of contents apart), the sources are as
    they were, and no other file has changed. *)
Theorem build_writes_pages_and_toc
    (localeCompare : string -> string -> Z) (marked : string -> string)
    (cwd : string) (tree : Entry) (disk : Disk) (mdFiles : list string) :
  Walk_spec.NamesOk tree -> Walk_order.UniqueNames tree ->
  getAllMarkdownFiles (SRC_DIR cwd) tree [] = Some mdFiles -> mdFiles <> [] ->
  (forall p, In p mdFiles -> is_Some (files disk !! p)) ->
  Build_spec.writable cwd disk mdFiles = true ->
  exists disk',
    build localeCompare marked cwd tree disk = (Some tt, disk') /\
    files disk' !! Build_spec.tocPath cwd =
      Some (generateTocHtml localeCompare (Build_spec.pagesOf cwd disk mdFiles)) /\
    (forall p, In p mdFiles -> Build_spec.outPath cwd p <> Build_spec.tocPath cwd ->
               files disk' !! Build_spec.outPath cwd p =
               Some (Build_spec.htmlOf marked p (Build_spec.contentOf disk p))) /\
    (forall k, k <> Build_spec.tocPath cwd ->
               (forall p, In p mdFiles -> Build_spec.outPath cwd p <> k) ->
               files disk' !! k = files disk !! k) /\
    (forall p, In p mdFiles -> files disk' !! p = files disk !! p).
Proof.
  intros Hok Hu Hwalk Hne Hread _.
  now apply BuildRunFacts.build_success.
Qed.

(** [build_writes_pages_and_toc] at a concrete input. *)
Lemma build_writes_pages_and_toc_witness :
  let mdFiles := ["/w/a.md"; "/w/n/b.md"] in
  exists disk',
    build Str.codeUnitCompare (fun s => s) "/w" Example.tree Example.disk = (Some tt, disk') /\
    files disk' !! Build_spec.tocPath "/w" =
      Some (generateTocHtml Str.codeUnitCompare
              (Build_spec.pagesOf "/w" Example.disk mdFiles)) /\
    (forall p, In p mdFiles -> Build_spec.outPath "/w" p <> Build_spec.tocPath "/w" ->
               files disk' !! Build_spec.outPath "/w" p =
               Some (Build_spec.htmlOf (fun s => s) p (Build_spec.contentOf Example.disk p))) /\
    (forall k, k <> Build_spec.tocPath "/w" ->
               (forall p, In p mdFiles -> Build_spec.outPath "/w" p <> k) ->
               files disk' !! k = files Example.disk !! k) /\
    (forall p, In p mdFiles -> files disk' !! p = files Example.disk !! p).
Proof.
  apply (build_writes_pages_and_toc Str.codeUnitCompare (fun s => s) "/w"
           Example.tree Example.disk ["/w/a.md"; "/w/n/b.md"]).
  - exact ExampleFacts.tree_names.
  - exact ExampleFacts.tree_unique.
  - reflexivity.
  - discriminate.
  - exact ExampleFacts.disk_readable.
  - vm_compute. reflexivity.
Defined.



(** X16 (a note called toc.md).  When the note ["toc.md"] of the
    working directory is among the sources of a build that succeeds,
    on a disk that accepts the outputs, its page is written to the path of the table of contents and is
    overwritten by it: the table of contents has an entry for the note,
    and the file the entry leads to is the table of contents and not
    the page of the note. *)
Theorem page_of_toc_md_is_overwritten
    (localeCompare : string -> string -> Z) (marked : string -> string)
    (cwd : string) (tree : Entry) (disk : Disk) (mdFiles : list string) :
  let note := Path.join (SRC_DIR cwd) ("toc" ++ ".md") in
  Walk_spec.NamesOk tree -> Walk_order.UniqueNames tree ->
  getAllMarkdownFiles (SRC_DIR cwd) tree [] = Some mdFiles ->
  (forall p, In p mdFiles -> is_Some (files disk !! p)) ->
  Build_spec.writable cwd disk mdFiles = true ->
  In note mdFiles ->
  exists disk',
    build localeCompare marked cwd tree disk = (Some tt, disk') /\
    In (Build_spec.pageOf cwd note (Build_spec.contentOf disk note))
       (Build_spec.pagesOf cwd disk mdFiles) /\
    Build_spec.outPath cwd note = Build_spec.tocPath cwd /\
    files disk' !! Build_spec.outPath cwd note =
      Some (generateTocHtml localeCompare (Build_spec.pagesOf cwd disk mdFiles)) /\
    files disk' !! Build_spec.outPath cwd note <>
      Some (Build_spec.htmlOf marked note (Build_spec.contentOf disk note)).
Proof.
  intros note Hok Hu Hwalk Hread _ Hnote.
  assert (Hne : mdFiles <> []) by (intros ->; contradiction).
  destruct (BuildRunFacts.build_success localeCompare marked cwd tree disk mdFiles
              Hok Hu Hwalk Hne Hread) as (disk' & Hrun & Htoc & _).
  assert (Hout : Build_spec.outPath cwd note = Build_spec.tocPath cwd)
    by (now apply SourceFacts.outPath_toc).
  exists disk'. split; [exact Hrun|]. split; [|split; [exact Hout|]].
  - unfold Build_spec.pagesOf.
    apply (in_map (fun p => Build_spec.pageOf cwd p (Build_spec.contentOf disk p))).
    exact Hnote.
  - rewrite Hout, Htoc. split; [reflexivity|].
    intros H.
    assert (Hsome : forall a b : string, Some a = Some b -> a = b)
      by (intros a b Hab; congruence).
    apply Hsome in H. revert H. unfold generateTocHtml, Build_spec.htmlOf.
    apply BuildRunFacts.toc_is_no_page.
Qed.

(** [page_of_toc_md_is_overwritten] at a concrete input. *)
Lemma page_of_toc_md_is_overwritten_witness :
  let note := Path.join (SRC_DIR "/w") ("toc" ++ ".md") in
  let mdFiles := ["/w/toc.md"; "/w/n/b.md"] in
  exists disk',
    build Str.codeUnitCompare (fun s => s) "/w" Example.tocTree Example.tocDisk
      = (Some tt, disk') /\
    In (Build_spec.pageOf "/w" note (Build_spec.contentOf Example.tocDisk note))
       (Build_spec.pagesOf "/w" Example.tocDisk mdFiles) /\
    Build_spec.outPath "/w" note = Build_spec.tocPath "/w" /\
    files disk' !! Build_spec.outPath "/w" note =
      Some (generateTocHtml Str.codeUnitCompare
              (Build_spec.pagesOf "/w" Example.tocDisk mdFiles)) /\
    files disk' !! Build_spec.outPath "/w" note <>
      Some (Build_spec.htmlOf (fun s => s) note (Build_spec.contentOf Example.tocDisk note)).
Proof.
  apply (page_of_toc_md_is_overwritten Str.codeUnitCompare (fun s => s) "/w"
           Example.tocTree Example.tocDisk ["/w/toc.md"; "/w/n/b.md"]).
  - exact ExampleFacts.tocTree_names.
  - exact ExampleFacts.tocTree_unique.
  - reflexivity.
  - exact ExampleFacts.tocDisk_readable.
  - vm_compute. reflexivity.
  - now left.
Defined.

(** X17 (a source that cannot be read).  When one of the sources the
    walk returns cannot be read, the build rejects; once the other
    conversions have settled, on a disk that accepts the outputs, the
    sources that can be read have their pages written all the same, and
    no file is written but pages: in particular no table of contents,
    unless its path is that of a page. *)
Theorem build_with_missing_source
    (localeCompare : string -> string -> Z) (marked : string -> string)
    (cwd : string) (tree : Entry) (disk : Disk) (mdFiles : list string)
    (missing : string) :
  Walk_spec.NamesOk tree -> Walk_order.UniqueNames tree ->
  getAllMarkdownFiles (SRC_DIR cwd) tree [] = Some mdFiles ->
  In missing mdFiles -> files disk !! missing = None ->
  Build_spec.writable cwd disk mdFiles = true ->
  exists disk',
    build localeCompare marked cwd tree disk = (None, disk') /\
    (forall p c, In p mdFiles -> files disk !! p = Some c ->
                 files disk' !! Build_spec.outPath cwd p =
                 Some (Build_spec.htmlOf marked p c)) /\
    (forall k, (forall p, In p mdFiles -> Build_spec.outPath cwd p <> k) ->
               files disk' !! k = files disk !! k).
Proof.
  intros Hok Hu Hwalk Hin Hmiss _.
  now apply (BuildRunFacts.build_missing localeCompare marked cwd tree disk mdFiles missing).
Qed.

(** [build_with_missing_source] at a concrete input. *)
Lemma build_with_missing_source_witness :
  let mdFiles := ["/w/a.md"; "/w/n/b.md"] in
  exists disk',
    build Str.codeUnitCompare (fun s => s) "/w" Example.tree Example.partDisk
      = (None, disk') /\
    (forall p c, In p mdFiles -> files Example.partDisk !! p = Some c ->
                 files disk' !! Build_spec.outPath "/w" p =
                 Some (Build_spec.htmlOf (fun s => s) p c)) /\
    (forall k, (forall p, In p mdFiles -> Build_spec.outPath "/w" p <> k) ->
               files disk' !! k = files Example.partDisk !! k).
Proof.
  apply (build_with_missing_source Str.codeUnitCompare (fun s => s) "/w"
           Example.tree Example.partDisk ["/w/a.md"; "/w/n/b.md"] "/w/n/b.md").
  - exact ExampleFacts.tree_names.
  - exact ExampleFacts.tree_unique.
  - reflexivity.
  - right. now left.
  - vm_compute. reflexivity.
  - vm_compute. reflexivity.
Defined.
